(** * The global rate limiter for messaging: a shallow embedding

    Two realisations of one dispatcher live in the repository:

    - [messaging/limiter.py]: the asyncio variant, a worker task over a
      custom queue with task compaction (module [Async] below);
    - [messaging/rate_limiter.py]: the thread-based variant, a worker
      thread over a rate-limited FIFO queue (module [Threaded] below).

    Both are embedded as state machines: the limiter object, the futures of
    the event loop it settles and a clock are one record, each atomic stretch
    of the source between two suspension points is one function on it, and a
    run is a list of events.  Times and durations are integral seconds. *)

From Stdlib Require Import ZArith Ascii String List Lia Bool.
From Stdlib Require Strings.Byte.
From stdpp Require Import base option list gmap strings.
From Equations Require Import Equations.

Local Open Scope Z_scope.

(** ** Exceptions, results and futures *)

(** An awaited callable is known to the limiter by identity only. *)
Definition func := nat.

(** What an action returns is opaque to the limiter. *)
Definition value := string.

(** What the limiter reads of an exception [e]: [str(e)] and the attribute
    [e.seconds], when it has one. *)
Record exn := Exn { exn_str : string; exn_seconds : option Z }.

(** How [await func()] ends. *)
Inductive outcome :=
| Returns (v : value)
| Raises (e : exn)
| CancelledError.

Module Fut.

(** The state of an [asyncio.Future]. *)
Inductive fstate :=
| Pending
| Result (v : value)
| Exception (e : exn)
| Cancelled.

(** [future.done()] *)
Definition done (f : fstate) : bool :=
  match f with Pending => false | _ => true end.

(** [future.set_result(v)]: [None] is [InvalidStateError], raised on a
    future that is done; the future is left as it was. *)
Definition set_result (f : fstate) (v : value) : option fstate :=
  if done f then None else Some (Result v).

(** [future.set_exception(e)] *)
Definition set_exception (f : fstate) (e : exn) : option fstate :=
  if done f then None else Some (Exception e).

(** [future.cancel()]: no effect on a future that is done. *)
Definition cancel (f : fstate) : fstate :=
  if done f then f else Cancelled.

(** [if not future.done(): future.set_result(result)] *)
Definition settle_result (f : fstate) (v : value) : fstate :=
  if negb (done f) then default f (set_result f v) else f.

(** [if not future.done(): future.set_exception(e)] *)
Definition settle_exception (f : fstate) (e : exn) : fstate :=
  if negb (done f) then default f (set_exception f e) else f.

(** [if not future.done(): future.cancel()] *)
Definition settle_cancel (f : fstate) : fstate :=
  if negb (done f) then cancel f else f.

(** The futures of the event loop, by identity. *)
Abbreviation heap := (gmap nat fstate) (only parsing).

(** [future.done()] on the heap (a future that was never created is not done). *)
Definition is_done (h : heap) (future : nat) : bool :=
  match h !! future with Some f => done f | None => false end.

Definition update (g : fstate -> fstate) (future : nat) (h : heap) : heap :=
  match h !! future with Some f => <[future := g f]> h | None => h end.

End Fut.

(** ** Reading an exception as a flood wait *)

Module Err.

(** [str.lower()] on one character (ASCII). *)
Definition lower_ascii (c : ascii) : ascii :=
  let n := nat_of_ascii c in
  if ((65 <=? n)%nat && (n <=? 90)%nat)%bool then ascii_of_nat (n + 32) else c.

(** [str.lower()] *)
Fixpoint lower (s : string) : string :=
  match s with
  | EmptyString => EmptyString
  | String c s' => String (lower_ascii c) (lower s')
  end.

(** [sub in s] *)
Fixpoint contains (sub s : string) : bool :=
  (String.prefix sub s ||
   match s with
   | EmptyString => false
   | String _ s' => contains sub s'
   end)%bool.

(** limiter.py, lines 96-97:
    [error_msg = str(e).lower()];
    ["flood" in error_msg or "wait" in error_msg]. *)
Definition is_flood (e : exn) : bool :=
  let error_msg := lower (exn_str e) in
  (contains "flood" error_msg || contains "wait" error_msg)%bool.

(** limiter.py, lines 98-103: [seconds = 30], replaced by [e.seconds] when
    the exception has the attribute. *)
Definition flood_seconds (e : exn) : Z :=
  match exn_seconds e with
  | Some seconds => seconds
  | None => 30
  end.

(** rate_limiter.py, lines 89-90: [wait_seconds = getattr(e, "seconds", None)]
    and its truth value in [if wait_seconds:]. *)
Definition wait_seconds (e : exn) : option Z := exn_seconds e.

Definition truthy (w : option Z) : bool :=
  match w with
  | Some n => negb (n =? 0)
  | None => false
  end.

(** What the thread-based worker takes for a flood wait. *)
Definition is_flood_wait (e : exn) : bool := truthy (wait_seconds e).

End Err.

(** ** The asyncio variant: [messaging/limiter.py] *)

Module Async.

(** The limiter object with the futures it holds and a clock.  [running] is
    the worker's [dedup_key, func, future] between the pop and the end of
    [await func()]; [calls] lists the actions the worker invoked, oldest
    first; [stopped] records that the worker left its loop. *)
Record limiter := Limiter {
  queue_list : list string;
  queue_map : gmap string (func * nat);
  paused_until : Z;
  futures : Fut.heap;
  next_future : nat;
  running : option (string * func * nat);
  calls : list (string * func);
  clock : Z;
  stopped : bool
}.

(** [__init__] on a loop whose clock reads [t0]. *)
Definition init (t0 : Z) : limiter :=
  Limiter [] ∅ 0 ∅ 0 None [] t0 false.

Definition set_queue (l : list string) (m : gmap string (func * nat)) (s : limiter) : limiter :=
  Limiter l m (paused_until s) (futures s) (next_future s) (running s)
          (calls s) (clock s) (stopped s).

Definition set_paused_until (p : Z) (s : limiter) : limiter :=
  Limiter (queue_list s) (queue_map s) p (futures s) (next_future s) (running s)
          (calls s) (clock s) (stopped s).

Definition set_futures (h : Fut.heap) (s : limiter) : limiter :=
  Limiter (queue_list s) (queue_map s) (paused_until s) h (next_future s) (running s)
          (calls s) (clock s) (stopped s).

Definition set_running (r : option (string * func * nat)) (s : limiter) : limiter :=
  Limiter (queue_list s) (queue_map s) (paused_until s) (futures s) (next_future s) r
          (calls s) (clock s) (stopped s).

Definition set_clock (t : Z) (s : limiter) : limiter :=
  Limiter (queue_list s) (queue_map s) (paused_until s) (futures s) (next_future s)
          (running s) (calls s) t (stopped s).

Definition set_stopped (b : bool) (s : limiter) : limiter :=
  Limiter (queue_list s) (queue_map s) (paused_until s) (futures s) (next_future s)
          (running s) (calls s) (clock s) b.

Definition log_call (k : string) (f : func) (s : limiter) : limiter :=
  Limiter (queue_list s) (queue_map s) (paused_until s) (futures s) (next_future s)
          (running s) (calls s ++ [(k, f)]) (clock s) (stopped s).

(** [asyncio.sleep(d)]: the clock moves on by [d], not at all when [d <= 0]. *)
Definition sleep (d : Z) (s : limiter) : limiter :=
  set_clock (clock s + Z.max 0 d) s.

(** [loop.create_future()] *)
Definition create_future (s : limiter) : nat * limiter :=
  let future := next_future s in
  (future,
   Limiter (queue_list s) (queue_map s) (paused_until s)
           (<[future := Fut.Pending]> (futures s)) (S future) (running s)
           (calls s) (clock s) (stopped s)).

(** [_enqueue_internal(func, future, dedup_key, front)], lines 124-141. *)
Definition enqueue_internal (func : func) (future : nat) (dedup_key : string)
    (front : bool) (s : limiter) : limiter :=
  match queue_map s !! dedup_key with
  | Some (old_func, old_future) =>
      set_queue (queue_list s) (<[dedup_key := (func, old_future)]> (queue_map s)) s
  | None =>
      set_queue (if front then dedup_key :: queue_list s
                 else queue_list s ++ [dedup_key])
                (<[dedup_key := (func, future)]> (queue_map s)) s
  end.

(** [enqueue(func, dedup_key)], lines 143-156, up to [return await future]:
    the future the caller awaits, and the limiter.  [dedup_key] is the
    caller's key, or the [task_{id(func)}_{time}] generated for a caller who
    gives none. *)
Definition enqueue (func : func) (dedup_key : string) (s : limiter) : nat * limiter :=
  let '(future, s1) := create_future s in
  (future, enqueue_internal func future dedup_key false s1).

(** [fire_and_forget(func, dedup_key)], lines 158-166, with the task it
    creates run. *)
Definition fire_and_forget (func : func) (dedup_key : string) (s : limiter) : limiter :=
  let '(future, s1) := create_future s in
  enqueue_internal func future dedup_key false s1.

(** The worker, lines 80-86: [if self._paused_until > now: sleep(wait_time)]. *)
Definition sleep_out_pause (s : limiter) : limiter :=
  let now := clock s in
  if paused_until s >? now then sleep (paused_until s - now) s else s.

(** The worker, lines 72-91: wait for a key, pop it from the list and the
    map, sleep out a pause, take a slot of the [AsyncLimiter] (which takes
    time and nothing else) and start [func()].  With nothing queued the
    worker stays in [condition.wait()].  A popped key missing from the map is
    the [KeyError] of line 77, caught at line 120 and followed by
    [sleep(1)]. *)
Definition worker_take (s : limiter) : limiter :=
  if stopped s then s else
  match running s with
  | Some _ => s
  | None =>
      match queue_list s with
      | [] => s
      | dedup_key :: rest =>
          match queue_map s !! dedup_key with
          | None => sleep 1 (set_queue rest (queue_map s) s)
          | Some (func, future) =>
              let s1 := set_queue rest (delete dedup_key (queue_map s)) s in
              let s2 := sleep_out_pause s1 in
              log_call dedup_key func (set_running (Some (dedup_key, func, future)) s2)
          end
      end
  end.

(** The worker, lines 91-119: the end of [await func()]. *)
Definition worker_settle (o : outcome) (s : limiter) : limiter :=
  if stopped s then s else
  match running s with
  | None => s
  | Some (dedup_key, func, future) =>
      let s0 := set_running None s in
      match o with
      | Returns result =>
          set_futures (Fut.update (fun f => Fut.settle_result f result) future (futures s0)) s0
      | Raises e =>
          if Err.is_flood e then
            let seconds := Err.flood_seconds e in
            let s1 := set_paused_until (clock s0 + seconds) s0 in
            let s2 := enqueue_internal func future dedup_key true s1 in
            sleep seconds s2
          else
            set_futures (Fut.update (fun f => Fut.settle_exception f e) future (futures s0)) s0
      | CancelledError => set_stopped true s0
      end
  end.

(** What happens to a limiter: callers submit, the worker takes and
    settles, time passes, a caller gives up its future. *)
Inductive event :=
| Enqueue (f : func) (dedup_key : string)
| FireAndForget (f : func) (dedup_key : string)
| Take
| Settle (o : outcome)
| Tick (d : Z)
| Cancel (future : nat).

Definition step (s : limiter) (ev : event) : limiter :=
  match ev with
  | Enqueue f k => snd (enqueue f k s)
  | FireAndForget f k => fire_and_forget f k s
  | Take => worker_take s
  | Settle o => worker_settle o s
  | Tick d => sleep d s
  | Cancel future => set_futures (Fut.update Fut.cancel future (futures s)) s
  end.

Definition run (evs : list event) (s : limiter) : limiter :=
  fold_left step evs s.

(** The queue-state invariant. *)
Definition queue_ok (s : limiter) : Prop :=
  NoDup (queue_list s) ∧
  ∀ k : string, k ∈ queue_list s ↔ is_Some (queue_map s !! k).


(** Every future of the heap was handed out by [create_future]. *)
Definition heap_ok (s : limiter) : Prop :=
  ∀ i : nat, is_Some (futures s !! i) → (i < next_future s)%nat.

(** No queue slot and no local of the worker holds [future]. *)
Definition unreferenced (future : nat) (s : limiter) : Prop :=
  (∀ k f, queue_map s !! k ≠ Some (f, future)) ∧
  (∀ k f, running s ≠ Some (k, f, future)).

(** Every future a queue slot or the worker holds was handed out by
    [create_future]. *)
Definition refs_ok (s : limiter) : Prop :=
  (∀ k f i, queue_map s !! k = Some (f, i) → (i < next_future s)%nat) ∧
  (∀ k f i, running s = Some (k, f, i) → (i < next_future s)%nat).

(** No future is held twice: not by two queue slots, and not by a slot and
    the worker. *)
Definition owned_once (s : limiter) : Prop :=
  (∀ k1 k2 f1 f2 i,
     queue_map s !! k1 = Some (f1, i) → queue_map s !! k2 = Some (f2, i) → k1 = k2) ∧
  (∀ k f i k' f', running s = Some (k', f', i) → queue_map s !! k ≠ Some (f, i)).


(** The event is the end of an action that the worker takes for a flood
    wait. *)
Definition flood_settle (ev : event) : bool :=
  match ev with
  | Settle (Raises e) => Err.is_flood e
  | _ => false
  end.

(** [a] sits ahead of [b] in the order list. *)
Definition ahead (a b : string) (l : list string) : Prop :=
  ∃ i j : nat, (i < j)%nat ∧ l !! i = Some a ∧ l !! j = Some b.

(** The invocations the worker started after state [s], up to state [s'],
    oldest first. *)
Definition started_since (s s' : limiter) : list (string * func) :=
  drop (length (calls s)) (calls s').


(** [n] turns of the worker, each ending in the exception [e]. *)
Definition retries (e : exn) (n : nat) : list event :=
  concat (replicate n [Take; Settle (Raises e)]).

(** The limiter between two tries of [fn] under [k]: [k] heads the list,
    its slot holds [fn] and [future]. *)
Definition waiting (k : string) (fn : func) (future : nat) (rest : list string)
    (m : gmap string (func * nat)) (h : Fut.heap) (s : limiter) : Prop :=
  stopped s = false ∧ running s = None ∧ queue_list s = k :: rest ∧
  queue_map s = <[k := (fn, future)]> m ∧ futures s = h.

(** A future that was handed out, is held by no queue slot and by no local
    of the worker, and is not done. *)
Definition orphan (future : nat) (s : limiter) : Prop :=
  unreferenced future s ∧ (future < next_future s)%nat ∧
  (futures s !! future = Some Fut.Pending ∨ futures s !! future = Some Fut.Cancelled).

(** In a list of starts, every start under [B] comes after one under [A]. *)
Definition A_first (A B : string) (l : list (string * func)) : Prop :=
  ∀ (i : nat) (f : func), l !! i = Some (B, f) →
    ∃ (j : nat) (g : func), (j < i)%nat ∧ l !! j = Some (A, g).

(** What holds of the starts [l] since [B] was admitted behind [A]. *)
Definition fifo_inv (A B : string) (s : limiter) (l : list (string * func)) : Prop :=
  queue_ok s ∧ A_first A B l ∧
  ((∃ j g, l !! j = Some (A, g)) ∨
   (ahead A B (queue_list s) ∧ ∀ i f, l !! i ≠ Some (B, f))).

End Async.

(** ** The thread-based variant: [messaging/rate_limiter.py] *)

Module Threaded.

(** The limiter object, the futures of the callers' loop and the wall
    clock.  [queue] is the content of the [RateLimitQueue], oldest first;
    [running] is the worker's [task_fn, future] while the task runs. *)
Record limiter := Limiter {
  queue : list (func * nat);
  pause_until : Z;
  futures : Fut.heap;
  next_future : nat;
  running : option (func * nat);
  calls : list func;
  clock : Z;
  stop_event : bool
}.

(** [__init__] at wall-clock time [t0]. *)
Definition init (t0 : Z) : limiter :=
  Limiter [] 0 ∅ 0 None [] t0 false.

(** [execute(func)], lines 42-45, up to [return await future]. *)
Definition execute (func : func) (s : limiter) : nat * limiter :=
  let future := next_future s in
  (future,
   Limiter (queue s ++ [(func, future)]) (pause_until s)
           (<[future := Fut.Pending]> (futures s)) (S future) (running s)
           (calls s) (clock s) (stop_event s)).

(** Lines 96-98: [max(self._pause_until, time.time() + wait_seconds)]. *)
Definition raised (pause_until now wait_seconds : Z) : Z :=
  Z.max pause_until (now + wait_seconds).

(** Lines 94-98: the pause after a flood wait of [wait_seconds]. *)
Definition raise_pause (wait_seconds : Z) (s : limiter) : limiter :=
  Limiter (queue s) (raised (pause_until s) (clock s) wait_seconds)
          (futures s) (next_future s) (running s) (calls s) (clock s) (stop_event s).

(** One turn of the worker's loop, lines 51-79: sleep at most a second of a
    pause and start over; otherwise get an item, drop it when its future is
    done, and start its task when it is not.  On an empty queue, and while
    the rate limit of the [RateLimitQueue] holds it back, the worker stays in
    [queue.get]. *)
Definition worker_turn (s : limiter) : limiter :=
  if stop_event s then s else
  match running s with
  | Some _ => s
  | None =>
      let pause_wait := pause_until s - clock s in
      if pause_wait >? 0 then
        Limiter (queue s) (pause_until s) (futures s) (next_future s) None
                (calls s) (clock s + Z.min pause_wait 1) (stop_event s)
      else
        match queue s with
        | [] => s
        | (task_fn, future) :: rest =>
            if Fut.is_done (futures s) future then
              Limiter rest (pause_until s) (futures s) (next_future s) None
                      (calls s) (clock s) (stop_event s)
            else
              Limiter rest (pause_until s) (futures s) (next_future s)
                      (Some (task_fn, future)) (calls s ++ [task_fn]) (clock s)
                      (stop_event s)
        end
  end.

Definition finish (h : Fut.heap) (s : limiter) : limiter :=
  Limiter (queue s) (pause_until s) h (next_future s) None
          (calls s) (clock s) (stop_event s).

(** The worker, lines 80-103: the end of [task_future.result()].  What the
    worker hands to [loop.call_soon_threadsafe] is done here; run later on a
    future that became done in between, [set_result] and [set_exception]
    raise and leave the future as it is, which is what the guarded attempt
    does. *)
Definition worker_settle (o : outcome) (s : limiter) : limiter :=
  match running s with
  | None => s
  | Some (task_fn, future) =>
      match o with
      | Returns result =>
          finish (Fut.update (fun f => Fut.settle_result f result) future (futures s)) s
      | CancelledError =>
          finish (Fut.update Fut.settle_cancel future (futures s)) s
      | Raises e =>
          let s1 := match Err.wait_seconds e with
                    | Some w => if w =? 0 then s else raise_pause w s
                    | None => s
                    end in
          finish (Fut.update (fun f => Fut.settle_exception f e) future (futures s1)) s1
      end
  end.

Inductive event :=
| Execute (f : func)
| Turn
| Settle (o : outcome)
| Tick (d : Z)
| Cancel (future : nat)
| Stop.

Definition step (s : limiter) (ev : event) : limiter :=
  match ev with
  | Execute f => snd (execute f s)
  | Turn => worker_turn s
  | Settle o => worker_settle o s
  | Tick d =>
      Limiter (queue s) (pause_until s) (futures s) (next_future s) (running s)
              (calls s) (clock s + Z.max 0 d) (stop_event s)
  | Cancel future =>
      Limiter (queue s) (pause_until s) (Fut.update Fut.cancel future (futures s))
              (next_future s) (running s) (calls s) (clock s) (stop_event s)
  | Stop =>
      Limiter (queue s) (pause_until s) (futures s) (next_future s) (running s)
              (calls s) (clock s) true
  end.

Definition run (evs : list event) (s : limiter) : limiter :=
  fold_left step evs s.

(** Every future of the heap was handed out by [execute]. *)
Definition heap_ok (s : limiter) : Prop :=
  ∀ i : nat, is_Some (futures s !! i) → (i < next_future s)%nat.

End Threaded.


(** ** Courses of events *)

(** The actions handed to [execute] of the thread-based variant in a course
    of events, oldest first. *)
Definition executed (evs : list Threaded.event) : list func :=
  omap (λ ev, match ev with Threaded.Execute f => Some f | _ => None end) evs.

(** A future that is not settled: pending, or cancelled by its caller. *)
Definition unsettled (x : option Fut.fstate) : Prop :=
  x = Some Fut.Pending ∨ x = Some Fut.Cancelled.

(** The futures held by the queue slots and by the worker of the asyncio
    variant are not settled. *)
Definition held_unsettled (s : Async.limiter) : Prop :=
  (∀ k f i, Async.queue_map s !! k = Some (f, i) → unsettled (Async.futures s !! i)) ∧
  (∀ k f i, Async.running s = Some (k, f, i) → unsettled (Async.futures s !! i)).

(** The event is a submission, by [enqueue] or by [fire_and_forget]. *)
Definition is_submission (ev : Async.event) : bool :=
  match ev with
  | Async.Enqueue _ _ | Async.FireAndForget _ _ => true
  | _ => false
  end.

(** The submissions in a course of events. *)
Definition submissions (evs : list Async.event) : nat :=
  length (filter (λ ev, is_submission ev = true) evs).

(** The flood waits in a course of events. *)
Definition flood_waits (evs : list Async.event) : nat :=
  length (filter (λ ev, Async.flood_settle ev = true) evs).

(** ** The thread-based worker, from one blocking call to the next *)

Module WorkerThread.
Import Threaded.

(** Where the worker thread is: at the test of the [while] (line 51), in
    [queue.get] (line 66), in [task_future.result()] (line 81), or out of
    the loop. *)
Inductive place :=
| AtWhile
| InGet
| InTask
| Left.

Record thread := Thread {
  lim : limiter;
  at_ : place
}.

(** The thread as [__init__] starts it. *)
Definition start (t0 : Z) : thread := Thread (init t0) AtWhile.

(** The worker goes on to its next blocking call.  At the [while]: leave
    the loop when the stop event is set (line 51), sleep at most a second
    of a pause and come back (lines 54-63), or else enter [queue.get].  In
    [queue.get] (lines 66-79): stay there on an empty queue; drop an item
    whose future is done and go back to the [while]; start the task of any
    other item. *)
Definition advance (t : thread) : thread :=
  let s := lim t in
  match at_ t with
  | AtWhile =>
      if stop_event s then Thread s Left else
      let pause_wait := pause_until s - clock s in
      if pause_wait >? 0 then
        Thread (Limiter (queue s) (pause_until s) (futures s) (next_future s) (running s)
                        (calls s) (clock s + Z.min pause_wait 1) (stop_event s)) AtWhile
      else Thread s InGet
  | InGet =>
      match queue s with
      | [] => t
      | (task_fn, future) :: rest =>
          if Fut.is_done (futures s) future then
            Thread (Limiter rest (pause_until s) (futures s) (next_future s) (running s)
                            (calls s) (clock s) (stop_event s)) AtWhile
          else
            Thread (Limiter rest (pause_until s) (futures s) (next_future s)
                            (Some (task_fn, future)) (calls s ++ [task_fn]) (clock s)
                            (stop_event s)) InTask
      end
  | InTask => t
  | Left => t
  end.

(** The task ends (lines 80-103) and the worker is back at the [while]. *)
Definition settle (o : outcome) (t : thread) : thread :=
  match at_ t with
  | InTask => Thread (worker_settle o (lim t)) AtWhile
  | _ => t
  end.

(** The events of [Threaded], with [Turn] for one [advance] of the
    worker; what the callers and the clock do leaves the worker where it
    is. *)
Definition step (t : thread) (ev : event) : thread :=
  match ev with
  | Turn => advance t
  | Settle o => settle o t
  | _ => Thread (Threaded.step (lim t) ev) (at_ t)
  end.

Definition run (evs : list event) (t : thread) : thread :=
  fold_left step evs t.

(** How many tasks the worker can still start once the stop event is
    set. *)
Definition starts_left (p : place) : nat :=
  match p with InGet => 1 | _ => 0 end.

End WorkerThread.

(** ** The singleton: [GlobalRateLimiter.get_instance] *)

Module Singleton.

(** The class with the limiter objects made so far.  A limiter object is
    known by the order of its construction; [instance] is [cls._instance],
    [workers] lists the limiters for which a worker task was created. *)
Record cls := Cls {
  instance : option nat;
  constructed : nat;
  workers : list nat
}.

(** The class as the module is loaded. *)
Definition loaded : cls := Cls None 0 [].

(** [GlobalRateLimiter()], lines 28-31 and 43-59: [__new__] makes a new
    object whatever [_instance] is, and [__init__] finds no [_initialized]
    on it. *)
Definition construct (c : cls) : nat * cls :=
  (constructed c, Cls (instance c) (S (constructed c)) (workers c)).

(** [get_instance()], lines 34-41. *)
Definition get_instance (c : cls) : nat * cls :=
  match instance c with
  | None =>
      let '(limiter, c1) := construct c in
      (limiter, Cls (Some limiter) (constructed c1) (workers c1 ++ [limiter]))
  | Some limiter => (limiter, c)
  end.

Inductive call :=
| GetInstance
| Construct.

(** One call: what it returns, and the class after it. *)
Definition step (c : cls) (op : call) : nat * cls :=
  match op with
  | GetInstance => get_instance c
  | Construct => construct c
  end.

(** A sequence of calls: what each returned, and the class after them. *)
Fixpoint run (ops : list call) (c : cls) : list (call * nat) * cls :=
  match ops with
  | [] => ([], c)
  | op :: more =>
      let '(limiter, c1) := step c op in
      let '(returned, c2) := run more c1 in
      ((op, limiter) :: returned, c2)
  end.

(** What holds of the class between calls: without an instance no worker
    runs; with one, it is a limiter that was constructed and the one worker
    is its own. *)
Definition class_ok (c : cls) : Prop :=
  match instance c with
  | None => workers c = []
  | Some limiter => workers c = [limiter] ∧ (limiter < constructed c)%nat
  end.

End Singleton.

(** ** The CLI session: [wrapper/cli_session.py] *)

Module Cli.

Abbreviation bytes := (list Byte.byte) (only parsing).

Definition newline : Byte.byte := Byte.x0a.

(** [s.endswith(suffix)] *)
Definition endswith (s suffix : string) : bool :=
  let n := String.length s in
  let m := String.length suffix in
  ((m <=? n)%nat && String.eqb (substring (n - m) m s) suffix)%bool.

(** [s[:-n]] for [n > 0]: all but the last [n] characters, nothing when
    there are no more than [n]. *)
Definition drop_last (n : nat) (s : string) : string :=
  substring 0 (String.length s - n) s.

(** Lines 34-37: what [ANTHROPIC_BASE_URL] is set to. *)
Definition base_url (api_url : string) : string :=
  if endswith api_url "/v1" then drop_last 3 api_url else api_url.

(** Lines 26-40: the environment of the subprocess, from [os.environ]. *)
Definition task_env (environ : gmap string string) (api_url : string) : gmap string string :=
  <["TERM" := "dumb"]>
    (<["ANTHROPIC_BASE_URL" := base_url api_url]>
       (<["ANTHROPIC_API_URL" := api_url]> environ)).

(** [buffer.find(b"\n")]: [None] is [-1]. *)
Fixpoint find_newline (buffer : bytes) : option nat :=
  match buffer with
  | [] => None
  | b :: rest => if Byte.eqb b newline then Some 0%nat else S <$> find_newline rest
  end.

Lemma find_newline_lt (buffer : bytes) (pos : nat) :
  find_newline buffer = Some pos → (pos < length buffer)%nat.
Proof.
  revert pos. induction buffer as [|b rest IH]; intros pos; simpl; [done|].
  destruct (Byte.eqb b newline).
  - intros [= <-]. lia.
  - destruct (find_newline rest) as [p|]; simpl; [|done]. intros [= <-].
    specialize (IH p eq_refl). lia.
Qed.

Definition inspect {A : Type} (a : A) : {b : A | a = b} := exist _ a eq_refl.

(** Lines 83-92, the inner loop: cut the lines that end in the buffer off
    its front, oldest first; what is left of the buffer has no newline. *)
Equations? drain (buffer : bytes) : list bytes * bytes
  by wf (length buffer) lt :=
drain buffer with inspect (find_newline buffer) := {
  | exist _ None _ => ([], buffer)
  | exist _ (Some newline_pos) Hfind =>
      let line := take newline_pos buffer in
      let '(lines, rest) := drain (drop (S newline_pos) buffer) in
      (line :: lines, rest) }.
Proof.
  apply find_newline_lt in Hfind. rewrite length_drop. lia.
Qed.

(** [lines], each followed by a newline, and then [rest]. *)
Definition joined (lines : list bytes) (rest : bytes) : bytes :=
  concat ((λ line, line ++ [newline]) <$> lines) ++ rest.

(** What [start_task] yields.  A parsed line is any JSON value; the two
    other events are the dictionaries of lines 101 and 112. *)
Inductive event (json : Type) :=
| Parsed (value : json)
| RawLine (content : string)
| Exit (code : Z).
Arguments Parsed {json} value.
Arguments RawLine {json} content.
Arguments Exit {json} code.


Section session.

(** The library functions the session calls: [bytes.decode("utf-8",
    errors="replace")], [str.strip()], [json.loads] ([None] is
    [JSONDecodeError]) and [os.path.normpath]. *)
Context {json : Type}.
Variable decode : bytes → string.
Variable strip : string → string.
Variable loads : string → option json.
Variable normpath : string → string.

(** [_handle_line_gen(line_str)], lines 94-112, for a process that exits
    with [return_code]: the parsed line or the raw one, then, after reading
    what is left of stderr and waiting for the process, the exit event. *)
Definition handle_line_gen (return_code : Z) (line_str : string) : list (event json) :=
  [ match loads line_str with
    | Some value => Parsed value
    | None => RawLine line_str
    end;
    Exit return_code ].

(** Lines 89-92 and 76-79: decode and strip a line, and handle it when
    something is left. *)
Definition handle (return_code : Z) (line : bytes) : list (event json) :=
  let line_str := strip (decode line) in
  if String.eqb line_str "" then [] else handle_line_gen return_code line_str.

(** Lines 74-80: the end of the stream, with what is left in the buffer. *)
Definition at_eof (return_code : Z) (buffer : bytes) : list (event json) :=
  match buffer with
  | [] => []
  | _ => handle return_code buffer
  end.

(** Lines 71-92: the events of the outer loop, given what each
    [stdout.read(65536)] returns from now on and the buffer; an empty chunk,
    or no chunk any more, is the end of the stream. *)
Fixpoint read_loop (return_code : Z) (chunks : list bytes) (buffer : bytes) : list (event json) :=
  match chunks with
  | [] => at_eof return_code buffer
  | [] :: _ => at_eof return_code buffer
  | chunk :: more =>
      let '(lines, rest) := drain (buffer ++ chunk) in
      flat_map (handle return_code) lines ++ read_loop return_code more rest
  end.

(** The events of a whole stream read at once: those of its lines, and of
    what follows the last newline. *)
Definition events_of_stream (return_code : Z) (data : bytes) : list (event json) :=
  flat_map (handle return_code) (fst (drain data)) ++ at_eof return_code (snd (drain data)).

(** Lines 44-56: the command line. *)
Definition task_cmd (prompt : string) (allowed_dirs : list string) : list string :=
  ["claude"; "-p"; prompt; "--output-format"; "stream-json";
   "--dangerously-skip-permissions"; "--verbose"]
  ++ flat_map (λ d, ["--add-dir"; normpath d]) allowed_dirs.

(** [start_task(prompt)]: the command, the working directory and the
    environment of the subprocess, and the events yielded when its stdout
    comes in [chunks] and it exits with [return_code]. *)
Definition start_task (workspace api_url : string) (allowed_dirs : list string)
    (environ : gmap string string) (prompt : string)
    (chunks : list bytes) (return_code : Z)
    : list string * string * gmap string string * list (event json) :=
  (task_cmd prompt allowed_dirs, normpath workspace, task_env environ api_url,
   read_loop return_code chunks []).

End session.

End Cli.
(** * Properties *)

(** ** Futures settle once *)

Module FutFacts.
Import Fut.

Lemma settle_result_done f v : done (settle_result f v) = true.
Proof. by destruct f. Qed.

Lemma settle_exception_done f e : done (settle_exception f e) = true.
Proof. by destruct f. Qed.

Lemma settle_result_noop f v : done f = true → settle_result f v = f.
Proof. by destruct f. Qed.

Lemma settle_exception_noop f e : done f = true → settle_exception f e = f.
Proof. by destruct f. Qed.

Lemma settle_cancel_noop f : done f = true → settle_cancel f = f.
Proof. by destruct f. Qed.

Lemma cancel_noop f : done f = true → cancel f = f.
Proof. by destruct f. Qed.

(** An update of the heap by a function that leaves done futures alone
    leaves them alone. *)
Lemma update_done_stable (g : fstate → fstate) (h : heap) (i j : nat) (f : fstate) :
  (∀ x, done x = true → g x = x) →
  h !! j = Some f → done f = true → update g i h !! j = Some f.
Proof.
  intros Hg Hj Hd. unfold update.
  destruct (h !! i) as [x|] eqn:Hi; [|done].
  destruct (decide (i = j)) as [->|Hne].
  - rewrite lookup_insert_eq. rewrite Hj in Hi. injection Hi as <-. by rewrite Hg.
  - by rewrite lookup_insert_ne.
Qed.

Lemma update_dom (g : fstate → fstate) (h : heap) (i j : nat) :
  is_Some (update g i h !! j) ↔ is_Some (h !! j).
Proof.
  unfold update. destruct (h !! i) as [x|] eqn:Hi; [|done].
  destruct (decide (i = j)) as [->|Hne].
  - rewrite lookup_insert_eq, Hi. split; eauto.
  - by rewrite lookup_insert_ne.
Qed.

Lemma update_other (g : fstate → fstate) (h : heap) (i j : nat) :
  i ≠ j → update g i h !! j = h !! j.
Proof.
  intros Hne. unfold update. destruct (h !! i); [|done]. by rewrite lookup_insert_ne.
Qed.

Lemma update_same (g : fstate → fstate) (h : heap) (i : nat) :
  update g i h !! i = g <$> h !! i.
Proof.
  unfold update. destruct (h !! i) eqn:Hi; simpl; [|done]. by rewrite lookup_insert_eq.
Qed.

End FutFacts.


(** ** Substrings and the flood test *)

Module ErrFacts.
Import Err.

Lemma append_cons (c : ascii) (a b : string) :
  String.append (String c a) b = String c (String.append a b).
Proof. reflexivity. Qed.

Lemma prefix_spec (sub s : string) :
  String.prefix sub s = true ↔ ∃ b, s = String.append sub b.
Proof.
  revert s. induction sub as [|c sub IH]; intros s; simpl.
  - destruct s; split; eauto.
  - destruct s as [|c' s]; simpl.
    + split; [done|]. intros [b Hb]. by rewrite append_cons in Hb.
    + destruct (ascii_dec c c') as [->|Hne].
      * rewrite IH. split; intros [b Hb]; exists b.
        -- by rewrite append_cons, Hb.
        -- rewrite append_cons in Hb. congruence.
      * split; [done|]. intros [b Hb]. rewrite append_cons in Hb. congruence.
Qed.

(** [contains sub s] is Python's [sub in s]: [sub] occurs in [s] as a
    run of consecutive characters. *)
Lemma contains_spec (sub s : string) :
  contains sub s = true ↔ ∃ a b, s = String.append a (String.append sub b).
Proof.
  induction s as [|c s IH].
  - cbn [contains]. rewrite orb_false_r, prefix_spec. split.
    + intros [b Hb]. by exists EmptyString, b.
    + intros (a & b & Hab). destruct a as [|? ?]; [by exists b|].
      by rewrite append_cons in Hab.
  - cbn [contains]. rewrite orb_true_iff, IH, prefix_spec. split.
    + intros [[b Hb]|(a & b & Hab)].
      * by exists EmptyString, b.
      * exists (String c a), b. by rewrite append_cons, Hab.
    + intros (a & b & Hab). destruct a as [|c' a].
      * left. by exists b.
      * right. exists a, b. rewrite append_cons in Hab. congruence.
Qed.

Lemma is_flood_spec (e : exn) :
  is_flood e = true ↔
  contains "flood" (lower (exn_str e)) = true ∨ contains "wait" (lower (exn_str e)) = true.
Proof. unfold is_flood. apply orb_true_iff. Qed.

Lemma is_flood_wait_spec (e : exn) :
  is_flood_wait e = true ↔ ∃ d, exn_seconds e = Some d ∧ d ≠ 0.
Proof.
  unfold is_flood_wait, wait_seconds, truthy. destruct (exn_seconds e) as [d|].
  - rewrite negb_true_iff, Z.eqb_neq. split; [eauto|]. by intros (? & [= <-] & ?).
  - split; [done|]. by intros (? & ? & ?).
Qed.

End ErrFacts.
(** ** The asyncio variant: frame facts and the queue invariant *)

Module AsyncFacts.
Import Async.

Lemma run_app (evs1 evs2 : list event) (s : limiter) :
  run (evs1 ++ evs2) s = run evs2 (run evs1 s).
Proof. apply fold_left_app. Qed.

Lemma run_cons (ev : event) (evs : list event) (s : limiter) :
  run (ev :: evs) s = run evs (step s ev).
Proof. reflexivity. Qed.


(** *** What [_enqueue_internal] touches *)

Lemma enqueue_internal_frame func future k front s :
  let s' := enqueue_internal func future k front s in
  paused_until s' = paused_until s ∧ futures s' = futures s ∧
  next_future s' = next_future s ∧ running s' = running s ∧
  calls s' = calls s ∧ clock s' = clock s ∧ stopped s' = stopped s.
Proof.
  unfold enqueue_internal. destruct (queue_map s !! k) as [[? ?]|]; simpl; tauto.
Qed.

Lemma enqueue_internal_compacts func future k front s old_func old_future :
  queue_map s !! k = Some (old_func, old_future) →
  enqueue_internal func future k front s
  = set_queue (queue_list s) (<[k := (func, old_future)]> (queue_map s)) s.
Proof. intros H. unfold enqueue_internal. by rewrite H. Qed.

Lemma enqueue_internal_inserts func future k front s :
  queue_map s !! k = None →
  enqueue_internal func future k front s
  = set_queue (if front then k :: queue_list s else queue_list s ++ [k])
              (<[k := (func, future)]> (queue_map s)) s.
Proof. intros H. unfold enqueue_internal. by rewrite H. Qed.

Lemma enqueue_internal_queue_ok func future k front s :
  queue_ok s → queue_ok (enqueue_internal func future k front s).
Proof.
  intros [Hnd Hdom]. unfold enqueue_internal.
  destruct (queue_map s !! k) as [[old_func old_future]|] eqn:Hk.
  - split; simpl; [done|]. intros k'. rewrite lookup_insert_is_Some', Hdom.
    split; [by right|]. intros [<-|?]; [by rewrite Hk|done].
  - assert (Hnotin : k ∉ queue_list s).
    { intros Hin. apply Hdom in Hin. rewrite Hk in Hin. by destruct Hin. }
    split; simpl.
    + destruct front.
      * by apply NoDup_cons.
      * apply NoDup_app. split; [done|]. split; [|apply NoDup_singleton].
        intros x Hx Hx'. apply list_elem_of_singleton in Hx'. by subst.
    + intros k'. rewrite lookup_insert_is_Some', <- Hdom.
      destruct front.
      * rewrite elem_of_cons. split.
        -- intros [-> | ?]; auto.
        -- intros [<- | ?]; auto.
      * rewrite elem_of_app, list_elem_of_singleton. split.
        -- intros [? | ->]; auto.
        -- intros [<- | ?]; auto.
Qed.

(** *** The pop *)

Lemma worker_take_queue_ok s : queue_ok s → queue_ok (worker_take s).
Proof.
  intros [Hnd Hdom]. unfold worker_take.
  destruct (stopped s); [done|]. destruct (running s); [done|].
  destruct (queue_list s) as [|k rest] eqn:Hl; [by split; rewrite ?Hl|].
  assert (Hk : is_Some (queue_map s !! k)) by (apply Hdom; left).
  destruct Hk as [[func future] Hk]. rewrite Hk.
  apply NoDup_cons in Hnd as [Hnotin Hnd].
  assert (Hok : queue_ok (set_queue rest (delete k (queue_map s)) s)).
  { split; simpl; [done|]. intros k'. rewrite lookup_delete_is_Some, <- Hdom, elem_of_cons.
    split.
    - intros Hin. split; [|by right]. by intros ->.
    - by intros [Hne [->|?]]. }
  destruct Hok as [Hnd' Hdom'].
  unfold sleep_out_pause. case_match; split; simpl in *; done.
Qed.

Lemma worker_settle_queue_ok o s : queue_ok s → queue_ok (worker_settle o s).
Proof.
  intros Hok. unfold worker_settle.
  destruct (stopped s); [done|].
  destruct (running s) as [[[k func] future]|]; [|done].
  assert (Hok0 : queue_ok (set_running None s)) by (destruct Hok; by split).
  destruct o as [v|e|].
  - destruct Hok0; by split.
  - destruct (Err.is_flood e).
    + pose proof (enqueue_internal_queue_ok func future k true
        (set_paused_until (clock (set_running None s) + Err.flood_seconds e) (set_running None s))) as H.
      destruct H as [? ?]; [destruct Hok0; by split|]. by split.
    + destruct Hok0; by split.
  - destruct Hok0; by split.
Qed.

Lemma step_queue_ok s ev : queue_ok s → queue_ok (step s ev).
Proof.
  intros Hok. destruct ev as [f k|f k| |o|d|future]; simpl.
  - apply enqueue_internal_queue_ok. destruct Hok; by split.
  - unfold fire_and_forget. simpl. apply enqueue_internal_queue_ok. destruct Hok; by split.
  - by apply worker_take_queue_ok.
  - by apply worker_settle_queue_ok.
  - destruct Hok; by split.
  - destruct Hok; by split.
Qed.

Lemma init_queue_ok t0 : queue_ok (init t0).
Proof.
  split; simpl; [apply NoDup_nil_2|]. intros k. rewrite lookup_empty.
  split; [by intros ?%elem_of_nil|by intros [? ?]].
Qed.

Lemma run_queue_ok evs s : queue_ok s → queue_ok (run evs s).
Proof.
  revert s. induction evs as [|ev evs IH]; intros s Hok; [done|].
  rewrite run_cons. apply IH. by apply step_queue_ok.
Qed.


Lemma enqueue_eq f k s :
  snd (enqueue f k s) = enqueue_internal f (next_future s) k false (snd (create_future s)).
Proof. reflexivity. Qed.

Lemma fire_and_forget_eq f k s :
  fire_and_forget f k s = enqueue_internal f (next_future s) k false (snd (create_future s)).
Proof. reflexivity. Qed.

Lemma enqueue_future f k s : fst (enqueue f k s) = next_future s.
Proof. reflexivity. Qed.

(** *** The call log only grows *)

Lemma worker_take_calls s :
  calls (worker_take s) = calls s ∨
  ∃ k func future rest,
    queue_list s = k :: rest ∧ queue_map s !! k = Some (func, future) ∧
    running s = None ∧ stopped s = false ∧
    calls (worker_take s) = calls s ++ [(k, func)] ∧
    running (worker_take s) = Some (k, func, future) ∧
    queue_list (worker_take s) = rest ∧
    queue_map (worker_take s) = delete k (queue_map s).
Proof.
  unfold worker_take.
  destruct (stopped s); [by left|]. destruct (running s); [by left|].
  destruct (queue_list s) as [|k rest]; [by left|].
  destruct (queue_map s !! k) as [[func future]|] eqn:Hk; [|by left].
  right. exists k, func, future, rest. unfold sleep_out_pause. by case_match.
Qed.

Lemma worker_settle_calls o s : calls (worker_settle o s) = calls s.
Proof.
  unfold worker_settle. destruct (stopped s); [done|].
  destruct (running s) as [[[k func] future]|]; [|done].
  destruct o as [v|e|]; [done| |done].
  destruct (Err.is_flood e); [|done]. simpl.
  apply (enqueue_internal_frame func future k true
           (set_paused_until (clock s + Err.flood_seconds e) (set_running None s))).
Qed.

Lemma step_calls s ev : ∃ l, calls (step s ev) = calls s ++ l.
Proof.
  destruct ev as [f k|f k| |o|d|future]; simpl.
  - exists []. rewrite app_nil_r.
    apply (enqueue_internal_frame f (next_future s) k false (snd (create_future s))).
  - exists []. rewrite app_nil_r. unfold fire_and_forget. simpl.
    apply (enqueue_internal_frame f (next_future s) k false (snd (create_future s))).
  - destruct (worker_take_calls s) as [->|(k & func & future & rest & _ & _ & _ & _ & -> & _)].
    + exists []. by rewrite app_nil_r.
    + by eexists.
  - exists []. by rewrite app_nil_r, worker_settle_calls.
  - exists []. by rewrite app_nil_r.
  - exists []. by rewrite app_nil_r.
Qed.

Lemma run_calls evs s : ∃ l, calls (run evs s) = calls s ++ l.
Proof.
  revert s. induction evs as [|ev evs IH]; intros s.
  - exists []. by rewrite app_nil_r.
  - rewrite run_cons. destruct (IH (step s ev)) as [l2 ->].
    destruct (step_calls s ev) as [l1 ->]. exists (l1 ++ l2). by rewrite app_assoc.
Qed.

(** *** Futures are created fresh and, once done, stay as they are *)

Lemma step_heap_ok s ev : heap_ok s → heap_ok (step s ev).
Proof.
  intros Hok.
  assert (Hcreate : heap_ok (snd (create_future s))).
  { intros i. simpl. rewrite lookup_insert_is_Some'. intros [<-|Hi]; [lia|].
    apply Hok in Hi. lia. }
  destruct ev as [f k|f k| |o|d|future]; cbn [step].
  - intros i. rewrite enqueue_eq.
    destruct (enqueue_internal_frame f (next_future s) k false (snd (create_future s)))
      as (_ & -> & -> & _). apply Hcreate.
  - intros i. rewrite fire_and_forget_eq.
    destruct (enqueue_internal_frame f (next_future s) k false (snd (create_future s)))
      as (_ & -> & -> & _). apply Hcreate.
  - unfold worker_take, sleep_out_pause. repeat case_match; done.
  - unfold worker_settle. destruct (stopped s); [done|].
    destruct (running s) as [[[k func] future]|]; [|done].
    destruct o as [v|e|]; [| |done].
    + intros i. simpl. rewrite FutFacts.update_dom. apply Hok.
    + destruct (Err.is_flood e).
      * intros i. simpl.
        destruct (enqueue_internal_frame func future k true
           (set_paused_until (clock s + Err.flood_seconds e) (set_running None s)))
          as (_ & -> & -> & _). apply Hok.
      * intros i. simpl. rewrite FutFacts.update_dom. apply Hok.
  - done.
  - intros i. simpl. rewrite FutFacts.update_dom. apply Hok.
Qed.

Lemma run_heap_ok evs s : heap_ok s → heap_ok (run evs s).
Proof.
  revert s. induction evs as [|ev evs IH]; intros s Hok; [done|].
  rewrite run_cons. by apply IH, step_heap_ok.
Qed.

Lemma init_heap_ok t0 : heap_ok (init t0).
Proof. intros i. simpl. rewrite lookup_empty. by intros [? ?]. Qed.

Lemma step_done_stable s ev future f :
  heap_ok s → futures s !! future = Some f → Fut.done f = true →
  futures (step s ev) !! future = Some f.
Proof.
  intros Hok Hf Hd.
  assert (Hcreate : futures (snd (create_future s)) !! future = Some f).
  { simpl. rewrite lookup_insert_ne; [done|]. intros <-.
    specialize (Hok (next_future s)). rewrite Hf in Hok. specialize (Hok (mk_is_Some _ _ eq_refl)). lia. }
  destruct ev as [g k|g k| |o|d|future']; cbn [step].
  - rewrite enqueue_eq.
    destruct (enqueue_internal_frame g (next_future s) k false (snd (create_future s)))
      as (_ & -> & _). done.
  - rewrite fire_and_forget_eq.
    destruct (enqueue_internal_frame g (next_future s) k false (snd (create_future s)))
      as (_ & -> & _). done.
  - unfold worker_take, sleep_out_pause. repeat case_match; done.
  - unfold worker_settle. destruct (stopped s); [done|].
    destruct (running s) as [[[k func] future']|]; [|done].
    destruct o as [v|e|]; [| |done].
    + simpl. apply FutFacts.update_done_stable; [|done..].
      intros x. apply FutFacts.settle_result_noop.
    + destruct (Err.is_flood e).
      * simpl.
        destruct (enqueue_internal_frame func future' k true
           (set_paused_until (clock s + Err.flood_seconds e) (set_running None s)))
          as (_ & -> & _). done.
      * simpl. apply FutFacts.update_done_stable; [|done..].
        intros x. apply FutFacts.settle_exception_noop.
  - done.
  - apply FutFacts.update_done_stable; [|done..]. apply FutFacts.cancel_noop.
Qed.

Lemma run_done_stable evs s future f :
  heap_ok s → futures s !! future = Some f → Fut.done f = true →
  futures (run evs s) !! future = Some f.
Proof.
  revert s. induction evs as [|ev evs IH]; intros s Hok Hf Hd; [done|].
  rewrite run_cons. apply IH; [by apply step_heap_ok| by apply step_done_stable |done].
Qed.


(** ** The queue-state invariant *)

(** C6. The order list and the pending map always hold the same keys and
    the list holds no key twice: this is so in every state the limiter
    reaches from its construction, and from any state where it holds it
    holds again after [_enqueue_internal] and after the worker's pop.  An
    admission under a pending key (compaction) leaves the list as it is and
    the map with the same keys; an admission under a new key puts the key in
    both; the pop takes the head key out of both. *)
Theorem queue_invariant :
  (∀ t0 evs, queue_ok (run evs (init t0))) ∧
  (∀ s, queue_ok s →
     (∀ func future k front,
        let s' := enqueue_internal func future k front s in
        queue_ok s' ∧
        (is_Some (queue_map s !! k) →
           queue_list s' = queue_list s ∧ dom (queue_map s') = dom (queue_map s)) ∧
        (queue_map s !! k = None →
           k ∈ queue_list s' ∧ is_Some (queue_map s' !! k) ∧
           ∀ k', k' ≠ k → (k' ∈ queue_list s' ↔ k' ∈ queue_list s))) ∧
     (let s' := worker_take s in
      queue_ok s' ∧
      ∀ k rest, stopped s = false → running s = None → queue_list s = k :: rest →
        queue_list s' = rest ∧ (k ∉ queue_list s') ∧ queue_map s' !! k = None ∧
        ∃ func future, queue_map s !! k = Some (func, future) ∧
                       running s' = Some (k, func, future)) ∧
     (∀ ev, queue_ok (step s ev))).
Proof.
  split; [intros t0 evs; apply run_queue_ok, init_queue_ok|].
  intros s Hok. split; [|split].
  - intros func future k front s'. split; [by apply enqueue_internal_queue_ok|]. split.
    + intros [[old_func old_future] Hk]. subst s'.
      rewrite (enqueue_internal_compacts _ _ _ _ _ _ _ Hk). simpl. split; [done|].
      rewrite dom_insert_L. apply subseteq_union_1_L, singleton_subseteq_l.
      by apply elem_of_dom_2 in Hk.
    + intros Hk. subst s'. rewrite (enqueue_internal_inserts _ _ _ _ _ Hk). simpl.
      split; [destruct front; [left|apply elem_of_app; right; left]|].
      split; [by rewrite lookup_insert_eq|].
      intros k' Hne. destruct front.
      * rewrite elem_of_cons. intuition congruence.
      * rewrite elem_of_app, list_elem_of_singleton. intuition congruence.
  - intros s'. split; [by apply worker_take_queue_ok|].
    intros k rest Hst Hrun Hl. subst s'.
    destruct Hok as [Hnd Hdom].
    destruct (worker_take_calls s) as [Hsame|(k0 & func & future & rest0 & Hl0 & Hk & _ & _ & _ & Hr & Hl' & Hm')].
    + exfalso. revert Hsame. unfold worker_take. rewrite Hst, Hrun, Hl.
      assert (Hk : is_Some (queue_map s !! k)) by (apply Hdom; rewrite Hl; left).
      destruct Hk as [[func future] ->]. unfold sleep_out_pause. case_match; simpl; intros Heq.
      all: apply (f_equal length) in Heq; rewrite length_app in Heq; simpl in Heq; lia.
    + rewrite Hl in Hl0. injection Hl0 as <- <-. rewrite Hl', Hm'.
      rewrite Hl in Hnd. apply NoDup_cons in Hnd as [Hnotin _].
      split; [done|]. split; [done|]. split; [apply lookup_delete_eq|]. eauto.
  - intros ev. by apply step_queue_ok.
Qed.

(** The invariant at work on a burst of three submissions, two of them
    under one key, and a pop. *)
Lemma queue_invariant_witness :
  queue_ok (worker_take (run [Enqueue 1%nat "a"; Enqueue 2%nat "b"; Enqueue 3%nat "a"] (init 0))).
Proof.
  apply (proj2 queue_invariant).
  apply (proj1 queue_invariant).
Defined.


(** *** The worker's two steps, case by case *)

Lemma sleep_out_pause_frame s :
  let s' := sleep_out_pause s in
  queue_list s' = queue_list s ∧ queue_map s' = queue_map s ∧
  paused_until s' = paused_until s ∧ futures s' = futures s ∧
  next_future s' = next_future s ∧ running s' = running s ∧
  calls s' = calls s ∧ stopped s' = stopped s.
Proof. unfold sleep_out_pause. case_match; simpl; tauto. Qed.

Lemma worker_take_pops s k rest func future :
  stopped s = false → running s = None →
  queue_list s = k :: rest → queue_map s !! k = Some (func, future) →
  worker_take s
  = log_call k func (set_running (Some (k, func, future))
      (sleep_out_pause (set_queue rest (delete k (queue_map s)) s))).
Proof. intros Hst Hrun Hl Hk. unfold worker_take. by rewrite Hst, Hrun, Hl, Hk. Qed.

Lemma worker_settle_flood s k func future e :
  stopped s = false → running s = Some (k, func, future) → Err.is_flood e = true →
  worker_settle (Raises e) s
  = sleep (Err.flood_seconds e)
      (enqueue_internal func future k true
         (set_paused_until (clock s + Err.flood_seconds e) (set_running None s))).
Proof. intros Hst Hrun He. unfold worker_settle. by rewrite Hst, Hrun, He. Qed.

Lemma worker_settle_error s k func future e :
  stopped s = false → running s = Some (k, func, future) → Err.is_flood e = false →
  worker_settle (Raises e) s
  = set_futures (Fut.update (λ f, Fut.settle_exception f e) future (futures s))
      (set_running None s).
Proof. intros Hst Hrun He. unfold worker_settle. by rewrite Hst, Hrun, He. Qed.

(** *** A flood wait that does not clear *)

Section retry.
Variables (e : exn) (k : string) (fn : func) (future : nat).
Variables (rest : list string) (m : gmap string (func * nat)) (h : Fut.heap).
Hypothesis flood : Err.is_flood e = true.
Hypothesis fresh : m !! k = None.

Lemma retry_once s :
  waiting k fn future rest m h s →
  let s' := run [Take; Settle (Raises e)] s in
  waiting k fn future rest m h s' ∧ calls s' = calls s ++ [(k, fn)].
Proof using flood fresh.
  intros (Hst & Hrun & Hl & Hm & Hh). simpl.
  assert (Hk : queue_map s !! k = Some (fn, future)) by (rewrite Hm; apply lookup_insert_eq).
  rewrite (worker_take_pops s k rest fn future Hst Hrun Hl Hk).
  rewrite Hm, (delete_insert_id _ _ _ fresh).
  set (s1 := log_call _ _ _).
  destruct (sleep_out_pause_frame (set_queue rest m s)) as (Hl1 & Hm1 & _ & Hh1 & _ & _ & Hc1 & Hst1).
  assert (Hst' : stopped s1 = false) by (subst s1; simpl; by rewrite Hst1).
  assert (Hrun' : running s1 = Some (k, fn, future)) by done.
  rewrite (worker_settle_flood s1 k fn future e Hst' Hrun' flood).
  assert (Hk1 : queue_map (set_paused_until (clock s1 + Err.flood_seconds e) (set_running None s1)) !! k = None).
  { simpl. by rewrite Hm1. }
  rewrite (enqueue_internal_inserts _ _ _ _ _ Hk1). unfold waiting. simpl.
  rewrite Hl1, Hm1, Hh1, Hc1, Hst1. simpl. by rewrite Hh, Hst.
Qed.

Lemma retry_forever s n :
  waiting k fn future rest m h s →
  let s' := run (retries e n) s in
  waiting k fn future rest m h s' ∧ calls s' = calls s ++ replicate n (k, fn).
Proof using flood fresh.
  revert s. induction n as [|n IH]; intros s Hw.
  - simpl. split; [done|]. by rewrite app_nil_r.
  - unfold retries. cbn [replicate concat]. rewrite run_app.
    destruct (retry_once s Hw) as [Hw1 Hc1].
    destruct (IH _ Hw1) as [Hw2 Hc2]. split; [done|].
    unfold retries in Hc2. rewrite Hc2, Hc1, <- app_assoc. done.
Qed.

End retry.

(** ** How an exception is read as a flood wait *)

(** C9. In the asyncio variant the worker takes an exception for a flood
    wait exactly when its lowercased text contains ["flood"] or ["wait"].
    Such a failure settles no future, and the action is in the queue again:
    under a key with nothing pending it is at the front with its own future,
    and as long as it fails this way it is invoked again and again while the
    future stays as it was.  Any other failure, whether or not it carries
    [seconds], is set on the caller's future and the action is queued no
    more. *)
Theorem flood_sniffing (e : exn) :
  (Err.is_flood e = true ↔
     (∃ a b, Err.lower (exn_str e) = String.append a (String.append "flood" b)) ∨
     (∃ a b, Err.lower (exn_str e) = String.append a (String.append "wait" b))) ∧
  (∀ s k fn future, stopped s = false → running s = Some (k, fn, future) →
     let s' := worker_settle (Raises e) s in
     (Err.is_flood e = true →
        futures s' = futures s ∧ running s' = None ∧
        (∃ fut', queue_map s' !! k = Some (fn, fut')) ∧
        (queue_map s !! k = None →
           queue_list s' = k :: queue_list s ∧
           queue_map s' !! k = Some (fn, future) ∧
           ∀ n, let s'' := run (retries e n) s' in
                calls s'' = calls s ++ replicate n (k, fn) ∧
                futures s'' = futures s ∧
                queue_map s'' !! k = Some (fn, future))) ∧
     (Err.is_flood e = false →
        futures s' = Fut.update (λ f, Fut.settle_exception f e) future (futures s) ∧
        (futures s !! future = Some Fut.Pending →
           futures s' !! future = Some (Fut.Exception e)) ∧
        queue_list s' = queue_list s ∧ queue_map s' = queue_map s ∧
        running s' = None ∧ paused_until s' = paused_until s)).
Proof.
  split.
  { rewrite ErrFacts.is_flood_spec. by rewrite !ErrFacts.contains_spec. }
  intros s k fn future Hst Hrun s'. split.
  - intros He. subst s'. rewrite (worker_settle_flood s k fn future e Hst Hrun He).
    set (s1 := set_paused_until _ _).
    destruct (enqueue_internal_frame fn future k true s1) as (_ & Hh & _ & Hr & Hc & _ & Hs).
    split; [change (futures (enqueue_internal fn future k true s1) = futures s); by rewrite Hh|].
    split; [change (running (enqueue_internal fn future k true s1) = None); by rewrite Hr|]. split.
    + simpl. unfold enqueue_internal.
      destruct (queue_map s1 !! k) as [[old_func old_future]|]; simpl;
        rewrite lookup_insert_eq; eauto.
    + intros Hk. assert (Hk1 : queue_map s1 !! k = None) by done.
      rewrite (enqueue_internal_inserts _ _ _ _ _ Hk1).
      split; [done|]. split; [simpl; apply lookup_insert_eq|].
      intros n s''.
      destruct (retry_forever e k fn future (queue_list s) (queue_map s) (futures s) He Hk
                  (sleep (Err.flood_seconds e)
                     (set_queue (k :: queue_list s1) (<[k:=(fn, future)]> (queue_map s1)) s1)) n)
        as ((_ & _ & _ & Hm' & Hh') & Hc'); [by repeat split|].
      subst s''. split; [done|]. split; [done|]. rewrite Hm'. apply lookup_insert_eq.
  - intros He. subst s'. rewrite (worker_settle_error s k fn future e Hst Hrun He). simpl.
    split; [done|]. split; [|done].
    intros Hp. by rewrite FutFacts.update_same, Hp.
Qed.

(** A failed upload whose text says "wait" is read as a flood wait. *)
Lemma flood_sniffing_witness :
  let e := Exn "Upload failed, please WAIT for the server" None in
  let s := run [Enqueue 7%nat "edit:msg1"; Take] (init 0) in
  futures (worker_settle (Raises e) s) = futures s ∧
  queue_list (worker_settle (Raises e) s) = ["edit:msg1"].
Proof.
  intros e s.
  destruct (proj2 (flood_sniffing e) s "edit:msg1" 7%nat 0%nat eq_refl eq_refl)
    as [Hflood _].
  destruct (Hflood eq_refl) as (Hh & _ & _ & Hq).
  split; [exact Hh|]. exact (proj1 (Hq eq_refl)).
Defined.

(** ** A future nobody holds *)

Lemma enqueue_internal_unreferenced i fn future k front s :
  unreferenced i s → future ≠ i →
  unreferenced i (enqueue_internal fn future k front s).
Proof.
  intros [Hmap Hrun] Hne. split.
  - intros k' f'. unfold enqueue_internal.
    destruct (queue_map s !! k) as [[old_func old_future]|] eqn:Hk; simpl.
    + destruct (decide (k = k')) as [<-|Hkk].
      * rewrite lookup_insert_eq. intros [= -> ->]. by apply (Hmap k old_func).
      * rewrite lookup_insert_ne by done. apply Hmap.
    + destruct (decide (k = k')) as [<-|Hkk].
      * rewrite lookup_insert_eq. by intros [= -> ->].
      * rewrite lookup_insert_ne by done. apply Hmap.
  - intros k' f'.
    destruct (enqueue_internal_frame fn future k front s) as (_ & _ & _ & -> & _).
    apply Hrun.
Qed.

Lemma orphan_cancel_stays (x : option Fut.fstate) :
  x = Some Fut.Pending ∨ x = Some Fut.Cancelled →
  Fut.cancel <$> x = Some Fut.Pending ∨ Fut.cancel <$> x = Some Fut.Cancelled.
Proof. intros [-> | ->]; by right. Qed.

Lemma step_orphan i s ev : orphan i s → orphan i (step s ev).
Proof.
  intros ([Hmap Hrun] & Hlt & Hst).
  assert (Hcreate : orphan i (snd (create_future s))).
  { split; [by split|]. split; [simpl; lia|]. simpl.
    rewrite lookup_insert_ne by lia. done. }
  destruct ev as [f k|f k| |o|d|j]; cbn [step].
  - rewrite enqueue_eq. destruct Hcreate as (Hu & Hlt' & Hst').
    destruct (enqueue_internal_frame f (next_future s) k false (snd (create_future s)))
      as (_ & Hh & Hn & _).
    split; [apply enqueue_internal_unreferenced; [done|lia]|].
    by rewrite Hh, Hn.
  - rewrite fire_and_forget_eq. destruct Hcreate as (Hu & Hlt' & Hst').
    destruct (enqueue_internal_frame f (next_future s) k false (snd (create_future s)))
      as (_ & Hh & Hn & _).
    split; [apply enqueue_internal_unreferenced; [done|lia]|].
    by rewrite Hh, Hn.
  - unfold worker_take. destruct (stopped s); [by repeat split|].
    destruct (running s) eqn:Hr; [by repeat split; rewrite ?Hr|].
    destruct (queue_list s) as [|k rest]; [by repeat split; rewrite ?Hr|].
    destruct (queue_map s !! k) as [[fn future]|] eqn:Hk.
    + destruct (sleep_out_pause_frame (set_queue rest (delete k (queue_map s)) s))
        as (_ & Hm & _ & Hh & Hn & _).
      split; [split|]; simpl.
      * intros k' f'. rewrite Hm. simpl. intros Hk'.
        apply lookup_delete_Some in Hk' as [_ Hk']. by apply (Hmap k' f').
      * intros k' f' [= <- <- <-]. by apply (Hmap k fn).
      * by rewrite Hh, Hn.
    + by repeat split; simpl; rewrite ?Hr.
  - unfold worker_settle. destruct (stopped s); [by repeat split|].
    destruct (running s) as [[[k fn] future]|] eqn:Hr; [|by repeat split; rewrite ?Hr].
    assert (Hne : future ≠ i) by (intros ->; by apply (Hrun k fn)).
    destruct o as [v|e|].
    + split; [by split|]. simpl. by rewrite FutFacts.update_other.
    + destruct (Err.is_flood e).
      * set (s1 := set_paused_until _ _).
        destruct (enqueue_internal_frame fn future k true s1) as (_ & Hh & Hn & _).
        split; [|by split; simpl; rewrite ?Hh, ?Hn].
        assert (Hu : unreferenced i (enqueue_internal fn future k true s1)).
        { apply enqueue_internal_unreferenced; [by split|done]. }
        destruct Hu; by split.
      * split; [by split|]. simpl. by rewrite FutFacts.update_other.
    + by repeat split.
  - by repeat split.
  - split; [by split|]. split; [done|]. simpl.
    destruct (decide (j = i)) as [->|Hji].
    + rewrite FutFacts.update_same. by apply orphan_cancel_stays.
    + by rewrite FutFacts.update_other.
Qed.

Lemma run_orphan i evs s : orphan i s → orphan i (run evs s).
Proof.
  revert s. induction evs as [|ev evs IH]; intros s Ho; [done|].
  rewrite run_cons. by apply IH, step_orphan.
Qed.

Lemma enqueue_internal_refs_ok fn future k front s :
  refs_ok s → (future < next_future s)%nat →
  refs_ok (enqueue_internal fn future k front s).
Proof.
  intros [Hmap Hrun] Hlt.
  destruct (enqueue_internal_frame fn future k front s) as (_ & _ & Hn & Hr & _).
  split.
  - intros k' f' i. rewrite Hn. unfold enqueue_internal.
    destruct (queue_map s !! k) as [[old_func old_future]|] eqn:Hk; simpl.
    + destruct (decide (k = k')) as [<-|Hkk].
      * rewrite lookup_insert_eq. intros [= <- <-]. by apply (Hmap k old_func).
      * rewrite lookup_insert_ne by done. apply Hmap.
    + destruct (decide (k = k')) as [<-|Hkk].
      * rewrite lookup_insert_eq. by intros [= <- <-].
      * rewrite lookup_insert_ne by done. apply Hmap.
  - intros k' f' i. rewrite Hn, Hr. apply Hrun.
Qed.

Lemma step_refs_ok s ev : refs_ok s → refs_ok (step s ev).
Proof.
  intros [Hmap Hrun].
  assert (Hcreate : refs_ok (snd (create_future s))).
  { split; simpl; intros k f i Hi; [apply Hmap in Hi|apply Hrun in Hi]; lia. }
  destruct ev as [f k|f k| |o|d|j]; cbn [step].
  - rewrite enqueue_eq. apply enqueue_internal_refs_ok; [done|simpl; lia].
  - rewrite fire_and_forget_eq. apply enqueue_internal_refs_ok; [done|simpl; lia].
  - unfold worker_take. destruct (stopped s); [by split|].
    destruct (running s) eqn:Hr; [by split; rewrite ?Hr|].
    destruct (queue_list s) as [|k rest]; [by split; rewrite ?Hr|].
    destruct (queue_map s !! k) as [[fn future]|] eqn:Hk.
    + destruct (sleep_out_pause_frame (set_queue rest (delete k (queue_map s)) s))
        as (_ & Hm & _ & _ & Hn & _).
      split; simpl; rewrite Hn; simpl.
      * intros k' f' i. rewrite Hm. simpl. intros Hk'.
        apply lookup_delete_Some in Hk' as [_ Hk']. by apply (Hmap k' f').
      * intros k' f' i [= <- <- <-]. by apply (Hmap k fn).
    + by split; simpl; rewrite ?Hr.
  - unfold worker_settle. destruct (stopped s); [by split|].
    destruct (running s) as [[[k fn] future]|] eqn:Hr; [|by split; rewrite ?Hr].
    assert (Hlt : (future < next_future s)%nat) by by apply (Hrun k fn).
    destruct o as [v|e|]; [by split| |by split].
    destruct (Err.is_flood e); [|by split].
    set (s1 := set_paused_until _ _).
    assert (Hok : refs_ok (enqueue_internal fn future k true s1)).
    { apply enqueue_internal_refs_ok; [by split|done]. }
    destruct Hok; by split.
  - by split.
  - by split.
Qed.

Lemma run_refs_ok evs s : refs_ok s → refs_ok (run evs s).
Proof.
  revert s. induction evs as [|ev evs IH]; intros s Hok; [done|].
  rewrite run_cons. by apply IH, step_refs_ok.
Qed.

Lemma init_refs_ok t0 : refs_ok (init t0).
Proof. split; simpl; [|done]. intros k f i. by rewrite lookup_empty. Qed.

(** ** Callers that share a key *)

(** C3, as the code has it.  In whatever state the limiter has reached, a
    caller who submits under a key that is still pending gets a future of
    its own that no queue slot holds: the slot keeps the older future and
    takes the new action, and through every later course of events the
    caller's future is never settled (it stays pending until the caller
    cancels it). *)
Theorem compacted_caller_never_settled (t0 : Z) (evs : list event) (f : func) (k : string) :
  let s := run evs (init t0) in
  is_Some (queue_map s !! k) →
  let r := enqueue f k s in
  (∃ old_future, queue_map (snd r) !! k = Some (f, old_future) ∧ old_future ≠ fst r) ∧
  ∀ evs',
    futures (run evs' (snd r)) !! fst r = Some Fut.Pending ∨
    futures (run evs' (snd r)) !! fst r = Some Fut.Cancelled.
Proof.
  intros s [[old_func old_future] Hk] r.
  assert (Hrefs : refs_ok s) by apply run_refs_ok, init_refs_ok.
  assert (Hlt : (old_future < next_future s)%nat) by by apply (proj1 Hrefs k old_func).
  assert (Hr : snd r = set_queue (queue_list s) (<[k := (f, old_future)]> (queue_map s))
                         (snd (create_future s))).
  { subst r. rewrite enqueue_eq.
    by rewrite (enqueue_internal_compacts f (next_future s) k false _ old_func old_future). }
  split.
  - exists old_future. rewrite Hr. simpl. rewrite lookup_insert_eq. split; [done|]. lia.
  - assert (Ho : orphan (fst r) (snd r)).
    { rewrite Hr. subst r. rewrite enqueue_future. split; [split|]; simpl.
      - intros k' f'. destruct (decide (k = k')) as [<-|Hkk].
        + rewrite lookup_insert_eq. intros [= _ ->]. lia.
        + rewrite lookup_insert_ne by done. intros Hk'.
          apply (proj1 Hrefs) in Hk'. lia.
      - intros k' f' Hrun. apply (proj2 Hrefs) in Hrun. lia.
      - split; [lia|]. left. apply lookup_insert_eq. }
    intros evs'. apply (run_orphan _ evs') in Ho. apply Ho.
Qed.

(** Two edits of one message, the second submitted before the worker took
    the first: the worker runs the second action once and sets its result on
    the first caller's future; the second caller's future stays pending. *)
Lemma compacted_caller_never_settled_witness :
  let r1 := enqueue 1%nat "edit:msg1" (init 0) in
  let r2 := enqueue 2%nat "edit:msg1" (snd r1) in
  let s3 := run [Take; Settle (Returns "done_update_1")] (snd r2) in
  calls s3 = [("edit:msg1", 2%nat)] ∧
  futures s3 !! fst r1 = Some (Fut.Result "done_update_1") ∧
  futures s3 !! fst r2 = Some Fut.Pending ∧
  ∀ evs',
    futures (run evs' (snd r2)) !! fst r2 = Some Fut.Pending ∨
    futures (run evs' (snd r2)) !! fst r2 = Some Fut.Cancelled.
Proof.
  intros r1 r2 s3.
  split; [reflexivity|]. split; [reflexivity|]. split; [reflexivity|].
  exact (proj2 (compacted_caller_never_settled 0 [Enqueue 1%nat "edit:msg1"] 2%nat "edit:msg1"
                  (mk_is_Some _ _ eq_refl))).
Defined.

(** ** Compaction *)
















(** ** First in, first out across keys *)

(** What one event does to the order list and the call log: the list grows
    at one end or stays and nothing is invoked, or the head is popped and its
    action invoked. *)
Lemma step_order s ev :
  queue_ok s →
  (calls (step s ev) = calls s ∧
   (queue_list (step s ev) = queue_list s ∨
    ∃ k, (k ∉ queue_list s) ∧
         (queue_list (step s ev) = queue_list s ++ [k] ∨
          queue_list (step s ev) = k :: queue_list s))) ∨
  (∃ k0 fn rest, queue_list s = k0 :: rest ∧ queue_list (step s ev) = rest ∧
                 calls (step s ev) = calls s ++ [(k0, fn)]).
Proof.
  intros Hok.
  assert (Henq : ∀ fn future k front s0, queue_list s0 = queue_list s →
            queue_map s0 = queue_map s →
            queue_list (enqueue_internal fn future k front s0) = queue_list s ∨
            ∃ k1, (k1 ∉ queue_list s) ∧
                 (queue_list (enqueue_internal fn future k front s0) = queue_list s ++ [k1] ∨
                  queue_list (enqueue_internal fn future k front s0) = k1 :: queue_list s)).
  { intros fn future k front s0 Hl Hm. unfold enqueue_internal. rewrite Hm.
    destruct (queue_map s !! k) as [[old_func old_future]|] eqn:Hk; simpl; [left; exact Hl|].
    right. exists k. split.
    - intros Hin. apply (proj2 Hok) in Hin. rewrite Hk in Hin. by destruct Hin.
    - rewrite Hl. destruct front; [by right|by left]. }
  destruct ev as [f k|f k| |o|d|j]; cbn [step].
  - left. rewrite enqueue_eq. split; [|by apply Henq].
    apply (enqueue_internal_frame f (next_future s) k false (snd (create_future s))).
  - left. rewrite fire_and_forget_eq. split; [|by apply Henq].
    apply (enqueue_internal_frame f (next_future s) k false (snd (create_future s))).
  - unfold worker_take. destruct (stopped s); [left; by split; [|left]|].
    destruct (running s); [left; by split; [|left]|].
    destruct (queue_list s) as [|k0 rest] eqn:Hl; [left; split; [done|left; by rewrite Hl]|].
    assert (Hk : is_Some (queue_map s !! k0)) by (apply (proj2 Hok); rewrite Hl; left).
    destruct Hk as [[fn future] Hk]. rewrite Hk.
    right. exists k0, fn, rest.
    destruct (sleep_out_pause_frame (set_queue rest (delete k0 (queue_map s)) s))
      as (Hl' & _ & _ & _ & _ & _ & Hc & _).
    simpl. by rewrite Hl', Hc.
  - left. split; [apply worker_settle_calls|].
    unfold worker_settle. destruct (stopped s); [by left|].
    destruct (running s) as [[[k fn] future]|]; [|by left].
    destruct o as [v|e|]; [by left| |by left].
    destruct (Err.is_flood e); [|by left].
    apply (Henq fn future k true); done.
  - left. split; [done|by left].
  - left. split; [done|by left].
Qed.

Section fifo.
Variables (A B : string).
Hypothesis distinct : A ≠ B.

Lemma ahead_app l k : ahead A B l → ahead A B (l ++ [k]).
Proof.
  intros (i & j & Hij & Hi & Hj). exists i, j. split; [done|].
  split; by apply lookup_app_l_Some.
Qed.

Lemma ahead_cons l k : ahead A B l → ahead A B (k :: l).
Proof.
  intros (i & j & Hij & Hi & Hj). exists (S i), (S j). split; [lia|]. by split.
Qed.

Lemma ahead_pop k0 rest :
  NoDup (k0 :: rest) → ahead A B (k0 :: rest) →
  k0 = A ∨ (k0 ≠ A ∧ k0 ≠ B ∧ ahead A B rest).
Proof using distinct.
  intros Hnd (i & j & Hij & Hi & Hj).
  destruct i as [|i]; [left; simpl in Hi; congruence|].
  destruct j as [|j]; [lia|]. right.
  assert (Hne : ∀ n x, (k0 :: rest) !! S n = Some x → k0 ≠ x).
  { intros n x Hn ->.
    assert (0 = S n)%nat; [|done].
    by apply (NoDup_lookup (x :: rest) 0 (S n) x). }
  split; [by apply (Hne i)|]. split; [by apply (Hne j)|].
  exists i, j. split; [lia|]. by split.
Qed.

Lemma fifo_step s l ev :
  fifo_inv A B s l →
  ∃ l', calls (step s ev) = calls s ++ l' ∧ fifo_inv A B (step s ev) (l ++ l').
Proof using distinct.
  intros (Hok & Hfirst & Hcase).
  assert (Hok' : queue_ok (step s ev)) by by apply step_queue_ok.
  destruct (step_order s ev Hok) as [[Hc Hl]|(k0 & fn & rest & Hl & Hl' & Hc)].
  - exists []. rewrite !app_nil_r. split; [done|]. split; [done|]. split; [done|].
    destruct Hcase as [?|[Hahead Hno]]; [by left|]. right. split; [|done].
    destruct Hl as [->|(k & _ & [-> | ->])];
      [done|by apply ahead_app|by apply ahead_cons].
  - exists [(k0, fn)]. split; [done|]. split; [done|].
    destruct Hcase as [(j & g & Hj)|[Hahead Hno]].
    + split; [|left; exists j, g; by apply lookup_app_l_Some].
      intros i f Hi. apply lookup_app_Some in Hi as [Hi|[Hlen Hi]].
      * destruct (Hfirst i f Hi) as (j' & g' & ? & ?).
        exists j', g'. split; [done|]. by apply lookup_app_l_Some.
      * exists j, g. split; [|by apply lookup_app_l_Some].
        apply lookup_lt_Some in Hj. lia.
    + rewrite Hl in Hahead.
      destruct (ahead_pop k0 rest) as [->|(HkA & HkB & Hahead')];
        [by rewrite <- Hl; apply Hok|done| |].
      * split.
        -- intros i f Hi. apply lookup_app_Some in Hi as [Hi|[Hlen Hi]];
             [by apply Hno in Hi|].
           apply list_lookup_singleton_Some in Hi as [_ [= ? _]]. done.
        -- left. exists (length l), fn. by rewrite lookup_app_r, Nat.sub_diag.
      * split.
        -- intros i f Hi. apply lookup_app_Some in Hi as [Hi|[Hlen Hi]];
             [by apply Hno in Hi|].
           apply list_lookup_singleton_Some in Hi as [_ [= ? _]]. done.
        -- right. rewrite Hl'. split; [done|].
           intros i f Hi. apply lookup_app_Some in Hi as [Hi|[Hlen Hi]];
             [by apply Hno in Hi|].
           apply list_lookup_singleton_Some in Hi as [_ [= ? _]]. done.
Qed.

Lemma fifo_run evs s l :
  fifo_inv A B s l →
  ∃ l', calls (run evs s) = calls s ++ l' ∧ fifo_inv A B (run evs s) (l ++ l').
Proof using distinct.
  revert s l. induction evs as [|ev evs IH]; intros s l Hinv.
  - exists []. by rewrite !app_nil_r.
  - rewrite run_cons. destruct (fifo_step s l ev Hinv) as (l1 & Hc1 & Hinv1).
    destruct (IH _ _ Hinv1) as (l2 & Hc2 & Hinv2).
    exists (l1 ++ l2). rewrite Hc2, Hc1, <- app_assoc. split; [done|].
    by rewrite app_assoc.
Qed.

End fifo.

(** A key that is in the queue stays there until the worker pops it and
    starts its action. *)
Lemma step_pending A s ev :
  queue_ok s → A ∈ queue_list s →
  (A ∈ queue_list (step s ev) ∧ calls (step s ev) = calls s) ∨
  (∃ k g, calls (step s ev) = calls s ++ [(k, g)] ∧
          (k = A ∨ A ∈ queue_list (step s ev))).
Proof.
  intros Hok HA.
  destruct (step_order s ev Hok) as [[Hc Hl]|(k0 & fn & rest & Hl & Hl' & Hc)].
  - left. split; [|done].
    destruct Hl as [->|(k & _ & [-> | ->])];
      [done|apply elem_of_app; by left|by right].
  - right. exists k0, fn. split; [done|].
    rewrite Hl in HA. apply elem_of_cons in HA as [->|HA]; [by left|].
    right. by rewrite Hl'.
Qed.

Lemma started_since_app s s' l : calls s' = calls s ++ l → started_since s s' = l.
Proof. intros Hc. unfold started_since. by rewrite Hc, drop_app_length. Qed.

Lemma run_pending A evs s :
  queue_ok s → A ∈ queue_list s →
  A ∈ queue_list (run evs s) ∨ ∃ g, (A, g) ∈ started_since s (run evs s).
Proof.
  revert s. induction evs as [|ev evs IH]; intros s Hok HA; [by left|].
  rewrite run_cons.
  destruct (run_calls evs (step s ev)) as [l2 Hl2].
  destruct (step_pending A s ev Hok HA) as [[HA' Hc]|(k & g & Hc & Hk)].
  - destruct (IH _ (step_queue_ok s ev Hok) HA') as [?|[g Hg]]; [by left|].
    right. exists g. rewrite (started_since_app _ _ _ Hl2) in Hg.
    rewrite (started_since_app s _ l2); [done|by rewrite Hl2, Hc].
  - rewrite (started_since_app s _ ((k, g) :: l2)) by (by rewrite Hl2, Hc, <- app_assoc).
    destruct Hk as [->|HA'].
    + right. exists g. left.
    + destruct (IH _ (step_queue_ok s ev Hok) HA') as [?|[g' Hg]]; [by left|].
      right. exists g'. rewrite (started_since_app _ _ _ Hl2) in Hg. by right.
Qed.

(** C5. Admit [A] as a new key at normal priority and later, after any
    course of events, [B] as a new key at normal priority.  Then [A] has
    started before [B] was admitted, or [A] sits ahead of [B] in the order
    list and in every later course of events each start of an action under
    [B] comes after a start of an action under [A].  The same holds whenever
    [B] is admitted while [A] is in the queue.  The worker pops the head of
    the list; an action that ended in a flood wait, under a key with nothing
    pending, is put back at the head and is what the worker pops next. *)
Theorem fifo_across_keys (A B : string) :
  A ≠ B →
  (∀ s0 fA fB mid evs, queue_ok s0 → queue_map s0 !! A = None →
     let sA := snd (enqueue fA A s0) in
     queue_list sA = queue_list s0 ++ [A] ∧
     (queue_map (run mid sA) !! B = None →
      let sB := snd (enqueue fB B (run mid sA)) in
      (∃ g, (A, g) ∈ started_since sA (run mid sA)) ∨
      (ahead A B (queue_list sB) ∧
       ∀ i f, started_since sB (run evs sB) !! i = Some (B, f) →
         ∃ j g, (j < i)%nat ∧ started_since sB (run evs sB) !! j = Some (A, g)))) ∧
  (∀ s fB evs, queue_ok s → A ∈ queue_list s → queue_map s !! B = None →
     let s' := snd (enqueue fB B s) in
     queue_list s' = queue_list s ++ [B] ∧
     ahead A B (queue_list s') ∧
     ∀ i f, started_since s' (run evs s') !! i = Some (B, f) →
       ∃ j g, (j < i)%nat ∧ started_since s' (run evs s') !! j = Some (A, g)) ∧
  (∀ s k rest, queue_ok s → stopped s = false → running s = None →
     queue_list s = k :: rest →
     ∃ fn future, running (worker_take s) = Some (k, fn, future) ∧
                  calls (worker_take s) = calls s ++ [(k, fn)] ∧
                  queue_list (worker_take s) = rest) ∧
  (∀ s k fn future e, stopped s = false → running s = Some (k, fn, future) →
     Err.is_flood e = true → queue_map s !! k = None →
     let s' := worker_settle (Raises e) s in
     queue_list s' = k :: queue_list s ∧
     running (worker_take s') = Some (k, fn, future) ∧
     calls (worker_take s') = calls s ++ [(k, fn)] ∧
     queue_list (worker_take s') = queue_list s).
Proof.
  intros Hne.
  assert (Hbehind : ∀ s fB evs, queue_ok s → A ∈ queue_list s → queue_map s !! B = None →
     let s' := snd (enqueue fB B s) in
     queue_list s' = queue_list s ++ [B] ∧
     ahead A B (queue_list s') ∧
     ∀ i f, started_since s' (run evs s') !! i = Some (B, f) →
       ∃ j g, (j < i)%nat ∧ started_since s' (run evs s') !! j = Some (A, g)).
  { intros s fB evs Hok HA HB s'.
    assert (Hl : queue_list s' = queue_list s ++ [B]).
    { subst s'. rewrite enqueue_eq.
      by rewrite (enqueue_internal_inserts fB (next_future s) B false (snd (create_future s)) HB). }
    assert (Hahead : ahead A B (queue_list s')).
    { rewrite Hl. apply list_elem_of_lookup in HA as [i Hi].
      exists i, (length (queue_list s)). split; [by apply lookup_lt_Some in Hi|].
      split; [by apply lookup_app_l_Some|]. by rewrite lookup_app_r, Nat.sub_diag. }
    split; [done|]. split; [done|].
    assert (Hinv : fifo_inv A B s' []).
    { split; [subst s'; apply (step_queue_ok s (Enqueue fB B) Hok)|].
      split; [by intros i f ?|]. right. split; [done|]. by intros i f ?. }
    destruct (fifo_run A B Hne evs s' [] Hinv) as (l' & Hc & _ & Hfirst & _).
    rewrite (started_since_app _ _ _ Hc). apply Hfirst. }
  split; [|split; [done|split]].
  - intros s0 fA fB mid evs Hok HA sA.
    assert (Hl : queue_list sA = queue_list s0 ++ [A]).
    { subst sA. rewrite enqueue_eq.
      by rewrite (enqueue_internal_inserts fA (next_future s0) A false (snd (create_future s0)) HA). }
    split; [done|]. intros HB sB.
    assert (HokA : queue_ok sA) by (subst sA; apply (step_queue_ok s0 (Enqueue fA A) Hok)).
    destruct (run_pending A mid sA HokA) as [HA'|?]; [rewrite Hl; apply elem_of_app; right; left| |by left].
    right. destruct (Hbehind (run mid sA) fB evs) as (_ & ? & ?); [by apply run_queue_ok|done..|].
    by split.
  - intros s k rest [_ Hdom] Hst Hrun Hl.
    assert (Hk : is_Some (queue_map s !! k)) by (apply Hdom; rewrite Hl; left).
    destruct Hk as [[fn future] Hk]. exists fn, future.
    rewrite (worker_take_pops s k rest fn future Hst Hrun Hl Hk).
    destruct (sleep_out_pause_frame (set_queue rest (delete k (queue_map s)) s))
      as (Hl' & _ & _ & _ & _ & _ & Hc & _).
    simpl. by rewrite Hl', Hc.
  - intros s k fn future e Hst Hrun He Hk s'. subst s'.
    rewrite (worker_settle_flood s k fn future e Hst Hrun He).
    set (s1 := set_paused_until _ _).
    assert (Hk1 : queue_map s1 !! k = None) by done.
    rewrite (enqueue_internal_inserts fn future k true s1 Hk1).
    set (s2 := sleep _ _). split; [done|].
    assert (Hk2 : queue_map s2 !! k = Some (fn, future)) by (simpl; apply lookup_insert_eq).
    rewrite (worker_take_pops s2 k (queue_list s) fn future Hst eq_refl eq_refl Hk2).
    set (s3 := set_queue _ _ _).
    destruct (sleep_out_pause_frame s3) as (Hl' & _ & _ & _ & _ & _ & Hc & _).
    simpl. by rewrite Hl', Hc.
Qed.

(** Two messages queued one after the other; the first fails with a flood
    wait once and is retried before the second starts. *)
Lemma fifo_across_keys_witness :
  let s := run [Enqueue 1%nat "edit:a"] (init 0) in
  let s' := snd (enqueue 2%nat "edit:b" s) in
  let evs := [Take; Settle (Raises (Exn "FloodWait" (Some 2))); Take;
              Settle (Returns "done_a"); Take; Settle (Returns "done_b")] in
  queue_list s' = ["edit:a"; "edit:b"] ∧
  started_since s' (run evs s') = [("edit:a", 1%nat); ("edit:a", 1%nat); ("edit:b", 2%nat)] ∧
  ∃ j g, (j < 2)%nat ∧ started_since s' (run evs s') !! j = Some ("edit:a", g).
Proof.
  intros s s' evs.
  assert (Hne : "edit:a" ≠ "edit:b") by discriminate.
  destruct (proj1 (proj2 (fifo_across_keys "edit:a" "edit:b" Hne)) s 2%nat evs)
    as (Hl & _ & Hfifo).
  - apply run_queue_ok, init_queue_ok.
  - left.
  - reflexivity.
  - split; [exact Hl|]. split; [reflexivity|].
    apply (Hfifo 2%nat 2%nat). reflexivity.
Defined.

(** ** The pause has been slept out between two actions *)



Lemma worker_settle_flood_pause s k fn future e :
  stopped s = false → running s = Some (k, fn, future) → Err.is_flood e = true →
  paused_until (worker_settle (Raises e) s) = clock s + Err.flood_seconds e ∧
  clock (worker_settle (Raises e) s) = clock s + Z.max 0 (Err.flood_seconds e) ∧
  futures (worker_settle (Raises e) s) = futures s.
Proof.
  intros Hst Hrun He. rewrite (worker_settle_flood s k fn future e Hst Hrun He).
  set (s1 := set_paused_until _ _).
  destruct (enqueue_internal_frame fn future k true s1) as (Hp1 & Hh1 & _ & _ & _ & Hc1 & _).
  simpl. by rewrite Hp1, Hc1, Hh1.
Qed.

(** ** A flood wait under a key that was submitted again *)

Lemma enqueue_internal_owned_once fn future k front s :
  owned_once s → running s = None → unreferenced future s →
  owned_once (enqueue_internal fn future k front s).
Proof.
  intros [Hinj Hrun] Hnone [Hfree _].
  destruct (enqueue_internal_frame fn future k front s) as (_ & _ & _ & Hr & _).
  split; [|intros k0 f i k' f'; by rewrite Hr, Hnone].
  intros k1 k2 f1 f2 i. unfold enqueue_internal.
  destruct (queue_map s !! k) as [[old_func old_future]|] eqn:Hk; simpl.
  - destruct (decide (k = k1)) as [<-|H1], (decide (k = k2)) as [<-|H2];
      rewrite ?lookup_insert_eq, ?lookup_insert_ne by done; [done| | |by apply Hinj].
    + intros [= _ <-] H. by apply (Hinj k k2 old_func f2 old_future).
    + intros H [= _ <-]. by apply (Hinj k1 k f1 old_func old_future).
  - destruct (decide (k = k1)) as [<-|H1], (decide (k = k2)) as [<-|H2];
      rewrite ?lookup_insert_eq, ?lookup_insert_ne by done; [done| | |by apply Hinj].
    + intros [= _ <-] H. by apply Hfree in H.
    + intros H [= _ <-]. by apply Hfree in H.
Qed.

Lemma step_owned_once s ev : refs_ok s → owned_once s → owned_once (step s ev).
Proof.
  intros [Hrmap Hrrun] [Hinj Hrun].
  assert (Hfresh : ∀ f k front,
            owned_once (enqueue_internal f (next_future s) k front (snd (create_future s)))).
  { intros f k front. unfold enqueue_internal. simpl.
    destruct (queue_map s !! k) as [[old_func old_future]|] eqn:Hk; simpl.
    - split; simpl.
      + intros k1 k2 f1 f2 i.
        destruct (decide (k = k1)) as [<-|H1], (decide (k = k2)) as [<-|H2];
          rewrite ?lookup_insert_eq, ?lookup_insert_ne by done; [done| | |by apply Hinj].
        * intros [= _ <-] H. by apply (Hinj k k2 old_func f2 old_future).
        * intros H [= _ <-]. by apply (Hinj k1 k f1 old_func old_future).
      + intros k0 f0 i k' f' Hr. destruct (decide (k = k0)) as [<-|H0].
        * rewrite lookup_insert_eq. intros [= _ <-]. by apply (Hrun k old_func old_future k' f').
        * rewrite lookup_insert_ne by done. by apply (Hrun k0 f0 i k' f').
    - split; simpl.
      + intros k1 k2 f1 f2 i.
        destruct (decide (k = k1)) as [<-|H1], (decide (k = k2)) as [<-|H2];
          rewrite ?lookup_insert_eq, ?lookup_insert_ne by done; [done| | |by apply Hinj].
        * intros [= _ <-] H. apply Hrmap in H. lia.
        * intros H [= _ <-]. apply Hrmap in H. lia.
      + intros k0 f0 i k' f' Hr. destruct (decide (k = k0)) as [<-|H0].
        * rewrite lookup_insert_eq. intros [= _ <-]. apply Hrrun in Hr. lia.
        * rewrite lookup_insert_ne by done. by apply (Hrun k0 f0 i k' f'). }
  destruct ev as [f k|f k| |o|d|j]; cbn [step].
  - rewrite enqueue_eq. apply Hfresh.
  - rewrite fire_and_forget_eq. apply Hfresh.
  - unfold worker_take. destruct (stopped s); [by split|].
    destruct (running s) eqn:Hr; [by split; rewrite ?Hr|].
    destruct (queue_list s) as [|k rest]; [by split; rewrite ?Hr|].
    destruct (queue_map s !! k) as [[fn future]|] eqn:Hk.
    + destruct (sleep_out_pause_frame (set_queue rest (delete k (queue_map s)) s))
        as (_ & Hm & _).
      split; simpl; rewrite Hm; simpl.
      * intros k1 k2 f1 f2 i H1 H2.
        apply lookup_delete_Some in H1 as [_ H1]. apply lookup_delete_Some in H2 as [_ H2].
        by apply (Hinj k1 k2 f1 f2 i).
      * intros k0 f0 i k' f' [= <- <- <-] H0.
        apply lookup_delete_Some in H0 as [Hne H0].
        apply Hne. by apply (Hinj k k0 fn f0 future).
    + by split; simpl; rewrite ?Hr.
  - unfold worker_settle. destruct (stopped s); [by split|].
    destruct (running s) as [[[k fn] future]|] eqn:Hr; [|by split; rewrite ?Hr].
    destruct o as [v|e|]; [by split| |by split].
    destruct (Err.is_flood e); [|by split].
    set (s1 := set_paused_until _ _).
    assert (Hok : owned_once (enqueue_internal fn future k true s1)).
    { apply enqueue_internal_owned_once; [by split|done|].
      split; [|done]. intros k0 f0. by apply (Hrun k0 f0 future k fn). }
    destruct Hok; by split.
  - by split.
  - by split.
Qed.

Lemma run_owned_once evs s : refs_ok s → owned_once s → owned_once (run evs s).
Proof.
  revert s. induction evs as [|ev evs IH]; intros s Hrefs Hown; [done|].
  rewrite run_cons. apply IH; [by apply step_refs_ok|by apply step_owned_once].
Qed.

Lemma init_owned_once t0 : owned_once (init t0).
Proof. split; simpl; [|done]. intros k1 k2 f1 f2 i. by rewrite lookup_empty. Qed.

(** In whatever state the limiter has reached, let the running action end
    in a flood wait while a newer submission is pending under its key.  The
    re-admission is a compaction: the order list stays as it is (the key is
    not moved to the front), the slot keeps the newer future and takes the
    older action back, and the future of the action that ran is held by
    nothing any more; if it was pending it is never settled. *)
Theorem requeue_collision (t0 : Z) (evs : list event) (k : string) (fn new_fn : func)
    (future new_future : nat) (e : exn) :
  let s := run evs (init t0) in
  stopped s = false → running s = Some (k, fn, future) → Err.is_flood e = true →
  queue_map s !! k = Some (new_fn, new_future) →
  let s' := worker_settle (Raises e) s in
  future ≠ new_future ∧
  queue_list s' = queue_list s ∧
  queue_map s' = <[k := (fn, new_future)]> (queue_map s) ∧
  unreferenced future s' ∧
  (futures s !! future = Some Fut.Pending →
   ∀ evs', futures (run evs' s') !! future = Some Fut.Pending ∨
           futures (run evs' s') !! future = Some Fut.Cancelled).
Proof.
  intros s Hst Hrun He Hk s'.
  assert (Hrefs : refs_ok s) by apply run_refs_ok, init_refs_ok.
  assert (Hown : owned_once s) by (apply run_owned_once; [apply init_refs_ok|apply init_owned_once]).
  assert (Hne : future ≠ new_future).
  { intros ->. by apply (proj2 Hown k new_fn new_future k fn Hrun). }
  assert (Hs' : s' = sleep (Err.flood_seconds e)
            (set_queue (queue_list s) (<[k := (fn, new_future)]> (queue_map s))
               (set_paused_until (clock s + Err.flood_seconds e) (set_running None s)))).
  { subst s'. rewrite (worker_settle_flood s k fn future e Hst Hrun He).
    by rewrite (enqueue_internal_compacts fn future k true
                  (set_paused_until (clock s + Err.flood_seconds e) (set_running None s))
                  new_fn new_future Hk). }
  assert (Hun : unreferenced future s').
  { rewrite Hs'. split; simpl; [|done]. intros k0 f0.
    destruct (decide (k = k0)) as [<-|H0].
    - rewrite lookup_insert_eq. by intros [= _ ?].
    - rewrite lookup_insert_ne by done. by apply (proj2 Hown k0 f0 future k fn Hrun). }
  split; [done|]. split; [by rewrite Hs'|]. split; [by rewrite Hs'|]. split; [done|].
  intros Hp evs'.
  assert (Ho : orphan future s').
  { split; [done|]. rewrite Hs'. simpl. split; [by apply (proj2 Hrefs k fn)|by left]. }
  apply (run_orphan _ evs') in Ho. apply Ho.
Qed.

(** An edit fails with a flood wait while a newer edit of the same message
    is queued. *)
Lemma requeue_collision_witness :
  let evs := [Enqueue 1%nat "edit:msg1"; Take; Enqueue 2%nat "edit:msg1"] in
  let s' := worker_settle (Raises (Exn "FloodWait" (Some 5))) (run evs (init 0)) in
  queue_map s' !! "edit:msg1" = Some (1%nat, 1%nat) ∧
  ∀ evs', futures (run evs' s') !! 0%nat = Some Fut.Pending ∨
          futures (run evs' s') !! 0%nat = Some Fut.Cancelled.
Proof.
  intros evs s'.
  destruct (requeue_collision 0 evs "edit:msg1" 1%nat 2%nat 0%nat 1%nat
              (Exn "FloodWait" (Some 5)) eq_refl eq_refl eq_refl eq_refl)
    as (_ & _ & Hm & _ & Hnever).
  split; [|exact (Hnever eq_refl)].
  subst s'. rewrite Hm. apply lookup_insert_eq.
Defined.

(** ** The pause check of the asyncio worker *)



End AsyncFacts.

(** ** The thread-based variant: frame facts *)

Module ThreadedFacts.
Import Threaded.

Lemma t_run_cons (ev : event) (evs : list event) (s : limiter) :
  run (ev :: evs) s = run evs (step s ev).
Proof. reflexivity. Qed.

Lemma worker_turn_frame s :
  futures (worker_turn s) = futures s ∧ next_future (worker_turn s) = next_future s ∧
  pause_until (worker_turn s) = pause_until s.
Proof. unfold worker_turn. repeat case_match; done. Qed.

Lemma worker_settle_pause o s : pause_until s ≤ pause_until (worker_settle o s).
Proof.
  unfold worker_settle. destruct (running s) as [[task_fn future]|]; [|done].
  destruct o as [v|e|]; simpl; [done| |done].
  destruct (Err.wait_seconds e) as [w|]; [|done].
  destruct (w =? 0); [done|]. simpl. unfold raised. lia.
Qed.

Lemma step_pause s ev : pause_until s ≤ pause_until (step s ev).
Proof.
  destruct ev as [f| |o|d|j|]; simpl; try done.
  - by rewrite (proj2 (proj2 (worker_turn_frame s))).
  - apply worker_settle_pause.
Qed.

Lemma run_pause evs s : pause_until s ≤ pause_until (run evs s).
Proof.
  revert s. induction evs as [|ev evs IH]; intros s; [done|].
  rewrite t_run_cons. etrans; [apply step_pause|apply IH].
Qed.

Lemma t_worker_settle_flood s task_fn future e w :
  running s = Some (task_fn, future) → exn_seconds e = Some w → w ≠ 0 →
  worker_settle (Raises e) s
  = finish (Fut.update (λ f, Fut.settle_exception f e) future (futures s)) (raise_pause w s).
Proof.
  intros Hrun He Hw. unfold worker_settle, Err.wait_seconds. rewrite Hrun, He.
  apply Z.eqb_neq in Hw. by rewrite Hw.
Qed.

Lemma t_step_heap_ok s ev : heap_ok s → heap_ok (step s ev).
Proof.
  intros Hok. destruct ev as [f| |o|d|j|]; simpl; try done.
  - intros i. simpl. rewrite lookup_insert_is_Some'. intros [<-|Hi]; [lia|].
    apply Hok in Hi. lia.
  - intros i. destruct (worker_turn_frame s) as (-> & -> & _). apply Hok.
  - unfold worker_settle. destruct (running s) as [[task_fn future]|]; [|done].
    destruct o as [v|e|]; intros i; simpl.
    + rewrite FutFacts.update_dom. apply Hok.
    + destruct (Err.wait_seconds e) as [w|]; [destruct (w =? 0)|]; simpl;
        rewrite FutFacts.update_dom; apply Hok.
    + rewrite FutFacts.update_dom. apply Hok.
  - intros i. simpl. rewrite FutFacts.update_dom. apply Hok.
Qed.

Lemma t_step_done_stable s ev future f :
  heap_ok s → futures s !! future = Some f → Fut.done f = true →
  futures (step s ev) !! future = Some f.
Proof.
  intros Hok Hf Hd. destruct ev as [g| |o|d|j|]; simpl; try done.
  - rewrite lookup_insert_ne; [done|]. intros <-.
    specialize (Hok (next_future s)). rewrite Hf in Hok.
    specialize (Hok (mk_is_Some _ _ eq_refl)). lia.
  - by rewrite (proj1 (worker_turn_frame s)).
  - unfold worker_settle. destruct (running s) as [[task_fn future']|]; [|done].
    destruct o as [v|e|]; simpl.
    + apply FutFacts.update_done_stable; [|done..].
      intros x. apply FutFacts.settle_result_noop.
    + destruct (Err.wait_seconds e) as [w|]; [destruct (w =? 0)|]; simpl;
        (apply FutFacts.update_done_stable; [|done..]);
        intros x; apply FutFacts.settle_exception_noop.
    + apply FutFacts.update_done_stable; [|done..]. apply FutFacts.settle_cancel_noop.
  - apply FutFacts.update_done_stable; [|done..]. apply FutFacts.cancel_noop.
Qed.

Lemma t_run_done_stable evs s future f :
  heap_ok s → futures s !! future = Some f → Fut.done f = true →
  futures (run evs s) !! future = Some f.
Proof.
  revert s. induction evs as [|ev evs IH]; intros s Hok Hf Hd; [done|].
  rewrite t_run_cons. apply IH; [by apply t_step_heap_ok|by apply t_step_done_stable|done].
Qed.

Lemma t_run_heap_ok evs s : heap_ok s → heap_ok (run evs s).
Proof.
  revert s. induction evs as [|ev evs IH]; intros s Hok; [done|].
  rewrite t_run_cons. by apply IH, t_step_heap_ok.
Qed.

Lemma t_init_heap_ok t0 : heap_ok (init t0).
Proof. intros i. simpl. rewrite lookup_empty. by intros [? ?]. Qed.

(** ** A future that is done when its item is dequeued *)

(** C10. When the worker of the thread-based variant, not stopped and not
    paused, dequeues an item, the item leaves the queue and no future
    changes.  If the item's future is done, completed or cancelled, nothing
    is invoked and the worker holds no task, so that nothing is settled for
    the item either; the action is invoked exactly when the future is not
    done. *)
Theorem done_future_skipped (s : limiter) (task_fn : func) (future : nat)
    (rest : list (func * nat)) :
  stop_event s = false → running s = None → pause_until s - clock s ≤ 0 →
  queue s = (task_fn, future) :: rest →
  let s' := worker_turn s in
  queue s' = rest ∧ futures s' = futures s ∧
  (Fut.is_done (futures s) future = true →
     calls s' = calls s ∧ running s' = None ∧ ∀ o, worker_settle o s' = s') ∧
  (Fut.is_done (futures s) future = false →
     calls s' = calls s ++ [task_fn] ∧ running s' = Some (task_fn, future)) ∧
  (calls s' ≠ calls s → Fut.is_done (futures s) future = false).
Proof.
  intros Hstop Hrun Hpause Hq s'. subst s'. unfold worker_turn.
  rewrite Hstop, Hrun, Hq.
  assert ((pause_until s - clock s >? 0) = false) as -> by lia.
  destruct (Fut.is_done (futures s) future) eqn:Hd; simpl.
  - split; [done|]. split; [done|]. split; [|split; [done|]].
    + intros _. split; [done|]. split; [done|]. by intros o.
    + by intros Hc.
  - split; [done|]. split; [done|]. split; [done|]. by split.
Qed.

(** A caller gave up before the worker reached its item. *)
Lemma done_future_skipped_witness :
  let s := run [Execute 1%nat; Cancel 0%nat] (init 0) in
  calls (worker_turn s) = [] ∧ queue (worker_turn s) = [] ∧
  futures (worker_turn s) = futures s.
Proof.
  intros s.
  destruct (done_future_skipped s 1%nat 0%nat [] eq_refl eq_refl) as (Hq & Hf & Hdone & _).
  - vm_compute. discriminate.
  - reflexivity.
  - destruct (Hdone eq_refl) as (Hc & _). split; [exact Hc|]. split; [exact Hq|exact Hf].
Defined.

End ThreadedFacts.

(** * Both variants side by side *)

Module Claims.

(** ** The pause deadline *)





(** ** A failure that is a flood wait *)

(** C2, as the code has it.  In the asyncio variant an action that ends in
    a flood wait settles no future and sets the pause deadline to now plus
    the cooldown; under a key with nothing pending, the same key, action and
    future are put at the front of the queue.  A failure that is no flood
    wait is set on the future, the queue and the deadline stay as they are.
    In the thread-based variant a failure that is a flood wait is set on the
    future all the same: nothing is queued again, and the deadline does not
    go down. *)
Theorem flood_requeue (e : exn) :
  (∀ s k fn future,
     Async.stopped s = false → Async.running s = Some (k, fn, future) →
     let s' := Async.worker_settle (Raises e) s in
     (Err.is_flood e = true →
        Async.futures s' = Async.futures s ∧
        Async.paused_until s' = Async.clock s + Err.flood_seconds e ∧
        (Async.queue_map s !! k = None →
           Async.queue_list s' = k :: Async.queue_list s ∧
           Async.queue_map s' = <[k := (fn, future)]> (Async.queue_map s))) ∧
     (Err.is_flood e = false →
        Async.futures s'
        = Fut.update (λ f, Fut.settle_exception f e) future (Async.futures s) ∧
        Async.queue_list s' = Async.queue_list s ∧
        Async.queue_map s' = Async.queue_map s ∧
        Async.paused_until s' = Async.paused_until s)) ∧
  (∀ s task_fn future,
     Threaded.running s = Some (task_fn, future) → Err.is_flood_wait e = true →
     let s' := Threaded.worker_settle (Raises e) s in
     Threaded.futures s'
     = Fut.update (λ f, Fut.settle_exception f e) future (Threaded.futures s) ∧
     Threaded.queue s' = Threaded.queue s ∧
     Threaded.running s' = None ∧
     Threaded.pause_until s ≤ Threaded.pause_until s').
Proof.
  split.
  - intros s k fn future Hst Hrun s'. subst s'. split.
    + intros He.
      destruct (AsyncFacts.worker_settle_flood_pause s k fn future e Hst Hrun He)
        as (Hp & _ & Hh).
      split; [done|]. split; [done|]. intros Hk.
      rewrite (AsyncFacts.worker_settle_flood s k fn future e Hst Hrun He).
      set (s1 := Async.set_paused_until _ _).
      assert (Hk1 : Async.queue_map s1 !! k = None) by done.
      by rewrite (AsyncFacts.enqueue_internal_inserts fn future k true s1 Hk1).
    + intros He. by rewrite (AsyncFacts.worker_settle_error s k fn future e Hst Hrun He).
  - intros s task_fn future Hrun He s'. subst s'.
    apply ErrFacts.is_flood_wait_spec in He as (w & He & Hw).
    rewrite (ThreadedFacts.t_worker_settle_flood s task_fn future e w Hrun He Hw).
    simpl. repeat split. unfold Threaded.raised. lia.
Qed.

(** A flood wait in each variant. *)
Lemma flood_requeue_witness :
  let e := Exn "FloodWaitError: A wait of 5 seconds is required" (Some 5) in
  let s := Async.run [Async.Enqueue 1%nat "edit:msg1"; Async.Take] (Async.init 0) in
  let ts := Threaded.run [Threaded.Execute 1%nat; Threaded.Turn] (Threaded.init 0) in
  (Async.futures (Async.worker_settle (Raises e) s) = Async.futures s ∧
   Async.queue_list (Async.worker_settle (Raises e) s) = ["edit:msg1"]) ∧
  Threaded.queue (Threaded.worker_settle (Raises e) ts) = [].
Proof.
  intros e s ts. split.
  - destruct (proj1 (flood_requeue e) s "edit:msg1" 1%nat 0%nat eq_refl eq_refl)
      as [Hflood _].
    destruct (Hflood eq_refl) as (Hh & _ & Hq).
    split; [exact Hh|]. exact (proj1 (Hq eq_refl)).
  - exact (proj1 (proj2 (proj2 (flood_requeue e) ts 1%nat 0%nat eq_refl eq_refl))).
Defined.

(** C2 as stated fails in the thread-based variant: a failure that carries
    [seconds] is a flood wait there, and the worker sets it on the caller's
    future and queues nothing again. *)
Lemma flood_error_surfaced :
  let e := Exn "FloodWaitError: A wait of 5 seconds is required" (Some 5) in
  let r := Threaded.execute 1%nat (Threaded.init 0) in
  let s := Threaded.run [Threaded.Turn; Threaded.Settle (Raises e)] (snd r) in
  Err.is_flood_wait e = true ∧
  Threaded.calls s = [1%nat] ∧
  Threaded.futures s !! fst r = Some (Fut.Exception e) ∧
  Threaded.queue s = [] ∧ Threaded.running s = None ∧
  Threaded.pause_until s = 5.
Proof. intros e r s. repeat split. Qed.

(** ** The cooldown of a flood wait *)

(** C7. In the asyncio variant the cooldown of a failure taken for a flood
    wait is its [seconds] when it has the attribute and 30 when it has not:
    the deadline is now plus the cooldown and the worker sleeps that long.
    In the thread-based variant a failure is taken for a flood wait only
    when it carries [seconds], and the deadline is raised by these. *)
Theorem cooldown_of_flood (e : exn) :
  (∀ s k fn future,
     Async.stopped s = false → Async.running s = Some (k, fn, future) →
     Err.is_flood e = true →
     let s' := Async.worker_settle (Raises e) s in
     let cooldown := match exn_seconds e with Some d => d | None => 30 end in
     Async.paused_until s' = Async.clock s + cooldown ∧
     Async.clock s' = Async.clock s + Z.max 0 cooldown) ∧
  (∀ s task_fn future,
     Threaded.running s = Some (task_fn, future) → Err.is_flood_wait e = true →
     ∃ d, exn_seconds e = Some d ∧
          Threaded.pause_until (Threaded.worker_settle (Raises e) s)
          = Z.max (Threaded.pause_until s) (Threaded.clock s + d)).
Proof.
  split.
  - intros s k fn future Hst Hrun He s' cooldown.
    destruct (AsyncFacts.worker_settle_flood_pause s k fn future e Hst Hrun He)
      as (Hp & Hc & _).
    done.
  - intros s task_fn future Hrun He.
    apply ErrFacts.is_flood_wait_spec in He as (w & He & Hw). exists w. split; [done|].
    by rewrite (ThreadedFacts.t_worker_settle_flood s task_fn future e w Hrun He Hw).
Qed.

(** A flood wait without [seconds] pauses the asyncio worker for 30. *)
Lemma cooldown_of_flood_witness :
  let s := Async.run [Async.Enqueue 1%nat "edit:msg1"; Async.Take] (Async.init 100) in
  Async.paused_until (Async.worker_settle (Raises (Exn "Flood control exceeded" None)) s)
  = 130.
Proof.
  intros s.
  exact (proj1 (proj1 (cooldown_of_flood (Exn "Flood control exceeded" None))
                  s "edit:msg1" 1%nat 0%nat eq_refl eq_refl eq_refl)).
Defined.

(** ** Settling a future *)

(** C8. A future that is done is left as it is by every further attempt
    to settle it: the guarded attempts of the workers do nothing, a bare
    [set_result] or [set_exception] raises and changes nothing.  An attempt
    on a pending future settles it, to the value or to the error.  In both
    variants a future that is done in a state the limiter has reached reads
    the same after every further course of events. *)
Theorem settlement_idempotent :
  (∀ f, Fut.done f = true →
     ∀ v e, Fut.settle_result f v = f ∧ Fut.settle_exception f e = f ∧
            Fut.settle_cancel f = f ∧ Fut.cancel f = f ∧
            Fut.set_result f v = None ∧ Fut.set_exception f e = None) ∧
  (∀ f v e,
     Fut.done (Fut.settle_result f v) = true ∧
     Fut.done (Fut.settle_exception f e) = true ∧
     (f = Fut.Pending →
        Fut.settle_result f v = Fut.Result v ∧
        Fut.settle_exception f e = Fut.Exception e) ∧
     ∀ v' e',
       Fut.settle_result (Fut.settle_result f v) v' = Fut.settle_result f v ∧
       Fut.settle_exception (Fut.settle_result f v) e' = Fut.settle_result f v ∧
       Fut.settle_result (Fut.settle_exception f e) v' = Fut.settle_exception f e ∧
       Fut.settle_exception (Fut.settle_exception f e) e' = Fut.settle_exception f e) ∧
  (∀ t0 evs evs' future f,
     let s := Async.run evs (Async.init t0) in
     Async.futures s !! future = Some f → Fut.done f = true →
     Async.futures (Async.run evs' s) !! future = Some f) ∧
  (∀ t0 evs evs' future f,
     let s := Threaded.run evs (Threaded.init t0) in
     Threaded.futures s !! future = Some f → Fut.done f = true →
     Threaded.futures (Threaded.run evs' s) !! future = Some f).
Proof.
  split; [|split; [|split]].
  - intros f Hd v e. by destruct f.
  - intros f v e. split; [apply FutFacts.settle_result_done|].
    split; [apply FutFacts.settle_exception_done|].
    split; [by intros ->|]. intros v' e'. by destruct f.
  - intros t0 evs evs' future f s Hf Hd.
    apply AsyncFacts.run_done_stable; [|done..].
    apply AsyncFacts.run_heap_ok, AsyncFacts.init_heap_ok.
  - intros t0 evs evs' future f s Hf Hd.
    apply ThreadedFacts.t_run_done_stable; [|done..].
    apply ThreadedFacts.t_run_heap_ok, ThreadedFacts.t_init_heap_ok.
Qed.

(** A caller cancels its future while its action waits out a flood wait;
    the retry returns, and the future stays cancelled. *)
Lemma settlement_idempotent_witness :
  let s := Async.run [Async.Enqueue 1%nat "edit:msg1"; Async.Take;
                      Async.Settle (Raises (Exn "FloodWait" (Some 5)));
                      Async.Cancel 0%nat] (Async.init 0) in
  Async.futures (Async.run [Async.Take; Async.Settle (Returns "done")] s) !! 0%nat
  = Some Fut.Cancelled.
Proof.
  intros s.
  exact (proj1 (proj2 (proj2 settlement_idempotent)) 0
           [Async.Enqueue 1%nat "edit:msg1"; Async.Take;
            Async.Settle (Raises (Exn "FloodWait" (Some 5))); Async.Cancel 0%nat]
           [Async.Take; Async.Settle (Returns "done")] 0%nat Fut.Cancelled
           eq_refl eq_refl).
Defined.

End Claims.

(** ** The CLI session: lines out of chunks *)

Module CliFacts.
Import Cli.

Lemma drain_none (buffer : bytes) :
  find_newline buffer = None → drain buffer = ([], buffer).
Proof.
  intros Hfind. funelim (drain buffer); [congruence|done].
Qed.

Lemma drain_some (buffer : bytes) (pos : nat) :
  find_newline buffer = Some pos →
  drain buffer
  = (take pos buffer :: fst (drain (drop (S pos) buffer)),
     snd (drain (drop (S pos) buffer))).
Proof.
  intros Hfind'. funelim (drain buffer); [|congruence].
  rewrite Hfind in Hfind'. injection Hfind' as <-.
  by destruct (drain (drop (S newline_pos) buffer)).
Qed.

Lemma find_newline_none (buffer : bytes) :
  find_newline buffer = None ↔ newline ∉ buffer.
Proof.
  induction buffer as [|b rest IH]; simpl.
  - split; [intros _; apply not_elem_of_nil|done].
  - rewrite not_elem_of_cons. destruct (Byte.eqb b newline) eqn:Hb.
    + apply Byte.byte_dec_bl in Hb as ->. split; [done|]. by intros [? _].
    + apply Byte.eqb_false in Hb.
      destruct (find_newline rest) as [p|]; simpl.
      * split; [done|]. intros [_ Hr]. by apply IH in Hr.
      * split; [|done]. intros _. split; [congruence|]. by apply IH.
Qed.

(** The first newline of a line followed by a newline is its end. *)
Lemma find_newline_line (line rest : bytes) :
  newline ∉ line → find_newline (line ++ newline :: rest) = Some (length line).
Proof.
  induction line as [|b line IH]; simpl; intros Hno.
  - reflexivity.
  - apply not_elem_of_cons in Hno as [Hb Hno].
    destruct (Byte.eqb b newline) eqn:Heq.
    + apply Byte.byte_dec_bl in Heq. congruence.
    + by rewrite IH.
Qed.

Lemma find_newline_some (buffer : bytes) (pos : nat) :
  find_newline buffer = Some pos →
  (newline ∉ take pos buffer) ∧
  buffer = take pos buffer ++ newline :: drop (S pos) buffer.
Proof.
  revert pos. induction buffer as [|b rest IH]; intros pos; simpl; [done|].
  destruct (Byte.eqb b newline) eqn:Hb.
  - intros [= <-]. apply Byte.byte_dec_bl in Hb as ->. simpl.
    split; [apply not_elem_of_nil|done].
  - apply Byte.eqb_false in Hb.
    destruct (find_newline rest) as [p|]; simpl; [|done]. intros [= <-].
    destruct (IH p eq_refl) as [Hno Heq]. simpl. split.
    + apply not_elem_of_cons. split; [congruence|done].
    + by rewrite <- Heq.
Qed.

Lemma drop_line (line rest : bytes) :
  drop (S (length line)) (line ++ newline :: rest) = rest.
Proof. induction line as [|b line IH]; [done|]. simpl. apply IH. Qed.

(** Induction along the inner loop. *)
Lemma drain_ind (P : bytes → Prop) :
  (∀ buffer, find_newline buffer = None → P buffer) →
  (∀ buffer pos, find_newline buffer = Some pos → P (drop (S pos) buffer) → P buffer) →
  ∀ buffer, P buffer.
Proof.
  intros Hnone Hsome buffer.
  remember (length buffer) as n eqn:Hn. revert buffer Hn.
  induction n as [n IH] using lt_wf_ind. intros buffer ->.
  destruct (find_newline buffer) as [pos|] eqn:Hfind; [|by apply Hnone].
  apply (Hsome buffer pos Hfind). apply (IH (length (drop (S pos) buffer))); [|done].
  apply find_newline_lt in Hfind. rewrite length_drop. lia.
Qed.

Lemma drain_joined (lines : list bytes) (rest : bytes) :
  Forall (λ line, newline ∉ line) lines → newline ∉ rest →
  drain (joined lines rest) = (lines, rest).
Proof.
  intros Hlines Hrest. induction Hlines as [|line lines Hline _ IH].
  - apply drain_none. by apply find_newline_none.
  - unfold joined. cbn [fmap list_fmap concat].
    rewrite <- !app_assoc. cbn [app].
    rewrite (drain_some _ (length line)) by by apply find_newline_line.
    rewrite take_app_length.
    rewrite drop_line. fold (joined lines rest). by rewrite IH.
Qed.

Lemma drain_spec (buffer : bytes) :
  (newline ∉ snd (drain buffer)) ∧
  Forall (λ line, newline ∉ line) (fst (drain buffer)) ∧
  joined (fst (drain buffer)) (snd (drain buffer)) = buffer.
Proof.
  induction buffer as [buffer Hfind|buffer pos Hfind IH] using drain_ind.
  - rewrite (drain_none _ Hfind). simpl. split; [by apply find_newline_none|].
    split; [constructor|done].
  - rewrite (drain_some _ _ Hfind). simpl. destruct IH as (Hrest & Hlines & Hjoin).
    destruct (find_newline_some _ _ Hfind) as [Hno Heq].
    split; [done|]. split; [by constructor|].
    unfold joined in *. cbn [fmap list_fmap concat]. rewrite <- !app_assoc. cbn [app].
    rewrite Hjoin. by rewrite <- Heq.
Qed.

(** Draining a buffer and then, with more bytes behind what was left, the
    rest, is draining the whole. *)
Lemma drain_app (buffer more : bytes) :
  drain (buffer ++ more)
  = (fst (drain buffer) ++ fst (drain (snd (drain buffer) ++ more)),
     snd (drain (snd (drain buffer) ++ more))).
Proof.
  destruct (drain_spec buffer) as (Hrest & Hlines & Hjoin).
  destruct (drain_spec (snd (drain buffer) ++ more)) as (Hrest2 & Hlines2 & Hjoin2).
  destruct (drain buffer) as [lines rest]. simpl in *.
  destruct (drain (rest ++ more)) as [lines2 rest2]. simpl in *.
  assert (buffer ++ more = joined (lines ++ lines2) rest2) as ->.
  { rewrite <- Hjoin. unfold joined in *.
    by rewrite fmap_app, concat_app, <- !app_assoc, Hjoin2. }
  apply drain_joined; [by apply Forall_app|done].
Qed.

(** The inner loop cuts the buffer at its newlines and loses no byte:
    neither the lines it hands on nor what it leaves in the buffer hold a
    newline, and the lines, each with its newline, followed by what is left
    are the buffer again.  The other way round, a buffer made of lines
    without a newline in them, each followed by one, and of a rest without
    one is cut into just these lines and this rest. *)
Theorem drain_splits_lines (buffer : bytes) :
  (newline ∉ snd (drain buffer)) ∧
  Forall (λ line, newline ∉ line) (fst (drain buffer)) ∧
  joined (fst (drain buffer)) (snd (drain buffer)) = buffer ∧
  ∀ lines rest,
    Forall (λ line, newline ∉ line) lines → newline ∉ rest →
    drain (joined lines rest) = (lines, rest).
Proof.
  destruct (drain_spec buffer) as (? & ? & ?). repeat split; try done.
  intros lines rest. apply drain_joined.
Qed.

Lemma drain_splits_lines_witness :
  drain (joined [[Byte.x7b; Byte.x7d]; []] [Byte.x61])
  = ([[Byte.x7b; Byte.x7d]; []], [Byte.x61]).
Proof.
  apply (proj2 (proj2 (proj2 (drain_splits_lines [])))).
  - apply Forall_cons. split; [by apply find_newline_none|].
    apply Forall_cons. split; [by apply find_newline_none|]. apply Forall_nil_2.
  - by apply find_newline_none.
Defined.

Section session.
Context {json : Type}.
Variable decode : bytes → string.
Variable strip : string → string.
Variable loads : string → option json.
Variable return_code : Z.

Local Abbreviation handle := (Cli.handle decode strip loads return_code).
Local Abbreviation at_eof := (Cli.at_eof decode strip loads return_code).
Local Abbreviation read_loop := (Cli.read_loop decode strip loads return_code).
Local Abbreviation events_of_stream := (Cli.events_of_stream decode strip loads return_code).

Lemma read_loop_whole (chunks : list bytes) (buffer : bytes) :
  newline ∉ buffer → Forall (λ chunk, chunk ≠ []) chunks →
  read_loop chunks buffer = events_of_stream (buffer ++ concat chunks).
Proof.
  intros Hbuf Hchunks. revert buffer Hbuf.
  induction Hchunks as [|chunk more Hchunk _ IH]; intros buffer Hbuf.
  - simpl. rewrite app_nil_r. unfold Cli.events_of_stream.
    by rewrite (drain_none buffer) by by apply find_newline_none.
  - destruct chunk as [|b chunk]; [done|]. cbn [Cli.read_loop concat].
    destruct (drain (buffer ++ b :: chunk)) as [lines rest] eqn:Hdrain.
    destruct (drain_spec (buffer ++ b :: chunk)) as (Hrest & _ & _).
    rewrite Hdrain in Hrest. simpl in Hrest.
    rewrite (IH rest Hrest). unfold Cli.events_of_stream.
    rewrite (app_assoc buffer), (drain_app (buffer ++ b :: chunk)), Hdrain. simpl.
    by rewrite flat_map_app, <- app_assoc.
Qed.

(** The events do not depend on how the stream comes in chunks: whatever
    the non-empty chunks, the events are those of the whole stream read at
    once, its lines cut at the newlines and the rest handled at the end. *)
Theorem events_whatever_the_chunks (chunks : list bytes) :
  Forall (λ chunk, chunk ≠ []) chunks →
  read_loop chunks [] = events_of_stream (concat chunks) ∧
  read_loop chunks [] = read_loop [concat chunks] [] ∧
  ∀ chunks', Forall (λ chunk, chunk ≠ []) chunks' → concat chunks' = concat chunks →
    read_loop chunks' [] = read_loop chunks [].
Proof.
  intros Hchunks.
  assert (Hwhole : ∀ cs, Forall (λ chunk, chunk ≠ []) cs →
            read_loop cs [] = events_of_stream (concat cs)).
  { intros cs Hcs. apply (read_loop_whole cs []); [apply not_elem_of_nil|done]. }
  split; [by apply Hwhole|]. split.
  - rewrite (Hwhole chunks Hchunks).
    destruct (concat chunks) as [|b data] eqn:Hdata.
    + unfold Cli.events_of_stream. by rewrite (drain_none []).
    + rewrite (Hwhole [b :: data]); [by rewrite <- Hdata; simpl; rewrite app_nil_r|].
      by repeat constructor.
  - intros chunks' Hchunks' Heq. by rewrite (Hwhole chunks'), (Hwhole chunks), Heq.
Qed.




End session.

(** A line that comes in three chunks, the newline in a chunk of its
    own. *)
Lemma events_whatever_the_chunks_witness :
  let decode := string_of_list_byte in
  let strip := λ s : string, s in
  let loads := λ s : string, if String.prefix "{" s then Some s else None in
  let chunks := [list_byte_of_string "{}"; [newline]; list_byte_of_string "done"] in
  read_loop decode strip loads 0 chunks []
  = [Parsed "{}"; Exit 0; RawLine "done"; Exit 0].
Proof.
  intros decode strip loads chunks.
  rewrite (proj1 (events_whatever_the_chunks decode strip loads 0 chunks
                    ltac:(repeat constructor; discriminate))).
  reflexivity.
Defined.

(** ** The CLI session: environment and command line *)

Lemma length_append (a b : string) :
  String.length (a +:+ b) = (String.length a + String.length b)%nat.
Proof. induction a as [|c a IH]; [done|]. simpl. by rewrite <- IH. Qed.

Lemma substring_all (s : string) : substring 0 (String.length s) s = s.
Proof. induction s as [|c s IH]; [done|]. simpl. by rewrite IH. Qed.

Lemma substring_append_r (a b : string) :
  substring (String.length a) (String.length b) (a +:+ b) = b.
Proof. induction a as [|c a IH]; [apply substring_all|]. exact IH. Qed.

Lemma substring_append_l (a b : string) :
  substring 0 (String.length a) (a +:+ b) = a.
Proof.
  induction a as [|c a IH]; [by destruct b|].
  change (String c (substring 0 (String.length a) (a +:+ b)) = String c a). by rewrite IH.
Qed.

Lemma substring_split (s : string) (k : nat) :
  (k ≤ String.length s)%nat →
  substring 0 k s +:+ substring k (String.length s - k) s = s.
Proof.
  revert k. induction s as [|c s IH]; intros k Hk.
  - simpl in Hk. by replace k with 0%nat by lia.
  - destruct k as [|k].
    + change (substring 0 (String.length (String c s)) (String c s) = String c s).
      apply substring_all.
    + simpl in Hk. specialize (IH k ltac:(lia)).
      change (String c (substring 0 k s +:+ substring k (String.length s - k) s) = String c s).
      by rewrite IH.
Qed.

Lemma endswith_append (a suffix : string) : endswith (a +:+ suffix) suffix = true.
Proof.
  unfold endswith. rewrite length_append.
  replace (String.length a + String.length suffix - String.length suffix)%nat
    with (String.length a) by lia.
  rewrite substring_append_r, String.eqb_refl, andb_true_r.
  apply Nat.leb_le. lia.
Qed.

Lemma endswith_split (s suffix : string) :
  endswith s suffix = true → s = drop_last (String.length suffix) s +:+ suffix.
Proof.
  unfold endswith, drop_last. intros [Hle Heq]%andb_true_iff.
  apply Nat.leb_le in Hle. apply String.eqb_eq in Heq.
  set (k := (String.length s - String.length suffix)%nat) in *.
  transitivity (substring 0 k s +:+ substring k (String.length s - k) s).
  - symmetry. apply substring_split. lia.
  - f_equal. replace (String.length s - k)%nat with (String.length suffix) by lia.
    exact Heq.
Qed.

Lemma drop_last_append (a suffix : string) :
  drop_last (String.length suffix) (a +:+ suffix) = a.
Proof.
  unfold drop_last. rewrite length_append.
  replace (String.length a + String.length suffix - String.length suffix)%nat
    with (String.length a) by lia.
  apply substring_append_l.
Qed.

(** The environment of the subprocess.  [ANTHROPIC_API_URL] is the API
    URL, [TERM] is [dumb], whatever [os.environ] held for them, and every
    other variable is inherited as it is.  [ANTHROPIC_BASE_URL] is the API
    URL without a final [/v1]: for a URL [b + "/v1"] it is [b], and for a
    URL that does not end in [/v1] it is the URL itself. *)
Theorem base_url_without_v1 (environ : gmap string string) (api_url : string) :
  let env := task_env environ api_url in
  env !! "ANTHROPIC_API_URL" = Some api_url ∧
  env !! "TERM" = Some "dumb" ∧
  env !! "ANTHROPIC_BASE_URL" = Some (base_url api_url) ∧
  (∀ name, name ≠ "ANTHROPIC_API_URL" → name ≠ "ANTHROPIC_BASE_URL" → name ≠ "TERM" →
     env !! name = environ !! name) ∧
  (∀ b, base_url (b +:+ "/v1") = b) ∧
  (api_url = base_url api_url +:+ "/v1" ∨
   (base_url api_url = api_url ∧ ∀ b, api_url ≠ b +:+ "/v1")).
Proof.
  intros env. subst env. unfold task_env.
  split; [by rewrite !lookup_insert_ne, lookup_insert_eq by done|].
  split; [by rewrite lookup_insert_eq|].
  split; [by rewrite lookup_insert_ne, lookup_insert_eq by done|].
  split; [intros name ? ? ?; by rewrite !lookup_insert_ne by done|].
  split.
  - intros b. unfold base_url. rewrite endswith_append.
    apply (drop_last_append b "/v1").
  - unfold base_url. destruct (endswith api_url "/v1") eqn:Hends.
    + left. apply (endswith_split api_url "/v1" Hends).
    + right. split; [done|]. intros b ->. by rewrite endswith_append in Hends.
Qed.

(** The command line: [claude -p] and the prompt as one argument, the
    five fixed options, and for each allowed directory, in their order, an
    [--add-dir] with the normalised directory. *)
Theorem cmd_lists_every_dir (normpath : string → string) (prompt : string)
    (allowed_dirs : list string) :
  let cmd := task_cmd normpath prompt allowed_dirs in
  length cmd = (7 + 2 * length allowed_dirs)%nat ∧
  take 3 cmd = ["claude"; "-p"; prompt] ∧
  (∀ i d, allowed_dirs !! i = Some d →
     cmd !! (7 + 2 * i)%nat = Some "--add-dir" ∧
     cmd !! (8 + 2 * i)%nat = Some (normpath d)) ∧
  (∀ j arg, (7 ≤ j)%nat → cmd !! j = Some arg →
     arg = "--add-dir" ∨ ∃ d, d ∈ allowed_dirs ∧ arg = normpath d).
Proof.
  intros cmd. subst cmd. unfold task_cmd.
  set (dirs := flat_map (λ d, ["--add-dir"; normpath d]) allowed_dirs).
  assert (Hlen : length dirs = (2 * length allowed_dirs)%nat).
  { subst dirs. induction allowed_dirs as [|d more IH]; [done|]. simpl in *. lia. }
  assert (Hdirs : ∀ i d, allowed_dirs !! i = Some d →
            dirs !! (2 * i)%nat = Some "--add-dir" ∧
            dirs !! (1 + 2 * i)%nat = Some (normpath d)).
  { subst dirs. clear Hlen. induction allowed_dirs as [|d0 more IH]; intros i d Hi; [done|].
    destruct i as [|i].
    - injection Hi as ->. by split.
    - destruct (IH i d Hi) as [H1 H2].
      replace (2 * S i)%nat with (S (S (2 * i))) by lia.
      replace (1 + S (S (2 * i)))%nat with (S (S (1 + 2 * i))) by lia.
      by split. }
  split; [rewrite length_app, Hlen; simpl; lia|]. split; [done|]. split.
  - intros i d Hi. destruct (Hdirs i d Hi) as [H1 H2].
    rewrite !lookup_app_r by (cbn [length]; lia). cbn [length].
    replace (7 + 2 * i - 7)%nat with (2 * i)%nat by lia.
    replace (8 + 2 * i - 7)%nat with (1 + 2 * i)%nat by lia. by split.
  - intros j arg Hj. rewrite lookup_app_r by (cbn [length]; lia). cbn [length].
    generalize (j - 7)%nat. clear Hj j. intros j.
    subst dirs. clear Hlen Hdirs. revert j.
    induction allowed_dirs as [|d0 more IH]; intros j; [done|].
    destruct j as [|[|j]]; simpl.
    + intros [= <-]. by left.
    + intros [= <-]. right. exists d0. split; [left|done].
    + intros Hj. destruct (IH j Hj) as [?|(d & Hd & ?)]; [by left|].
      right. exists d. split; [by right|done].
Qed.

End CliFacts.

(** ** The singleton *)

Module SingletonFacts.
Import Singleton.

Lemma step_spec c op :
  class_ok c →
  let r := fst (step c op) in
  let c1 := snd (step c op) in
  class_ok c1 ∧
  (constructed c ≤ constructed c1)%nat ∧
  (∀ l, instance c = Some l → instance c1 = Some l) ∧
  (∀ l, instance c1 = Some l → instance c = Some l ∨ (constructed c ≤ l)%nat) ∧
  match op with
  | GetInstance => instance c1 = Some r
  | Construct =>
      r = constructed c ∧ constructed c1 = S (constructed c) ∧ instance c1 = instance c
  end.
Proof.
  unfold class_ok. destruct op; simpl.
  - unfold get_instance. destruct (instance c) as [limiter|] eqn:Hi; simpl.
    + rewrite Hi. intros [Hw Hlt]. repeat split; try done. intros l ?. by left.
    + intros Hw. rewrite Hw. repeat split; try done; try lia.
      intros l [= <-]. by right.
  - destruct (instance c) as [limiter|] eqn:Hi; intros H.
    + destruct H. repeat split; try done; try lia. intros l ?. by left.
    + repeat split; try done; try lia.
Qed.

Lemma singleton_run_cons op ops c :
  run (op :: ops) c
  = ((op, fst (step c op)) :: fst (run ops (snd (step c op))),
     snd (run ops (snd (step c op)))).
Proof.
  simpl. destruct (step c op) as [limiter c1]. simpl. by destruct (run ops c1).
Qed.

Lemma run_spec ops c :
  class_ok c →
  let returned := fst (run ops c) in
  let c' := snd (run ops c) in
  class_ok c' ∧
  (constructed c ≤ constructed c')%nat ∧
  (∀ l, instance c = Some l → instance c' = Some l) ∧
  (∀ l, instance c' = Some l → instance c = Some l ∨ (constructed c ≤ l)%nat) ∧
  (∀ i l, returned !! i = Some (GetInstance, l) → instance c' = Some l) ∧
  (∀ i l, returned !! i = Some (Construct, l) →
     (constructed c ≤ l < constructed c')%nat ∧
     instance c' ≠ Some l ∧
     ∀ j l', i ≠ j → returned !! j = Some (Construct, l') → l ≠ l').
Proof.
  revert c. induction ops as [|op ops IH]; intros c Hok.
  { simpl. repeat split; try done. intros l ?. by left. }
  intros returned c'. subst returned c'. rewrite singleton_run_cons. cbn [fst snd].
  destruct (step_spec c op Hok) as (Hok1 & Hle1 & Hkeep1 & Hnew1 & Hop).
  destruct (IH _ Hok1) as (Hok2 & Hle2 & Hkeep2 & Hnew2 & Hget & Hcons).
  split; [done|]. split; [lia|]. split; [auto|]. split; [|split].
  - intros l Hl. destruct (Hnew2 l Hl) as [H1|H1]; [|right; lia].
    destruct (Hnew1 l H1) as [?|?]; [by left|by right].
  - intros [|i] l Hi; [|by apply (Hget i)].
    injection Hi as -> <-. by apply Hkeep2.
  - intros [|i] l Hi.
    + injection Hi as -> <-. destruct Hop as (Hr & Hc1 & Hinst).
      split; [lia|]. split.
      * rewrite Hr. intros Hs. destruct (Hnew2 _ Hs) as [H1|H1]; [|lia].
        rewrite Hinst in H1. unfold class_ok in Hok. rewrite H1 in Hok. lia.
      * intros [|j] l' Hne Hj; [done|].
        apply (Hcons j) in Hj as [Hrange _]. lia.
    + destruct (Hcons i l Hi) as (Hrange & Hnot & Hdist).
      split; [lia|]. split; [done|].
      intros [|j] l' Hne Hj.
      * injection Hj as -> <-. destruct Hop as (Hr & Hc1 & _). lia.
      * apply (Hdist j); [lia|done].
Qed.

(** From the class as it is loaded, whatever the calls of [get_instance]
    and of the constructor: every [get_instance] returned one and the same
    limiter, the instance of the class; that limiter has the only worker
    there is, and as long as [get_instance] was not called there is none.  A
    limiter made by the constructor is never that instance and has no
    worker, and no two of them are the same object. *)
Theorem one_instance_one_worker (ops : list call) :
  let returned := fst (run ops loaded) in
  let c := snd (run ops loaded) in
  (∀ i l, returned !! i = Some (GetInstance, l) →
     instance c = Some l ∧ workers c = [l]) ∧
  (∀ i j l l', returned !! i = Some (GetInstance, l) →
     returned !! j = Some (GetInstance, l') → l = l') ∧
  (instance c = None → workers c = []) ∧
  (∀ i l, returned !! i = Some (Construct, l) →
     instance c ≠ Some l ∧ (l ∉ workers c) ∧
     ∀ j l', i ≠ j → returned !! j = Some (Construct, l') → l ≠ l').
Proof.
  intros returned c.
  destruct (run_spec ops loaded) as (Hok & _ & _ & _ & Hget & Hcons); [done|].
  fold returned c in Hok, Hget, Hcons. unfold class_ok in Hok.
  split; [|split; [|split]].
  - intros i l Hi. specialize (Hget i l Hi). rewrite Hget in Hok. by destruct Hok.
  - intros i j l l' Hi Hj. apply Hget in Hi. apply Hget in Hj. congruence.
  - intros Hnone. by rewrite Hnone in Hok.
  - intros i l Hi. destruct (Hcons i l Hi) as (_ & Hnot & Hdist).
    split; [done|]. split; [|done].
    destruct (instance c) as [l0|].
    + destruct Hok as [-> _]. intros ->%list_elem_of_singleton. done.
    + rewrite Hok. apply not_elem_of_nil.
Qed.

(** The limiter is asked for twice, with a limiter constructed by hand in
    between. *)
Lemma one_instance_one_worker_witness :
  fst (run [GetInstance; Construct; GetInstance] loaded)
  = [(GetInstance, 0%nat); (Construct, 1%nat); (GetInstance, 0%nat)] ∧
  workers (snd (run [GetInstance; Construct; GetInstance] loaded)) = [0%nat].
Proof.
  split; [reflexivity|].
  exact (proj2 (proj1 (one_instance_one_worker [GetInstance; Construct; GetInstance])
                  0%nat 0%nat eq_refl)).
Defined.

End SingletonFacts.

(** ** The thread-based variant: order and pause *)

Module ThreadedRuns.
Import Threaded.

Lemma t_step_order s ev :
  calls (step s ev) ++ (fst <$> queue (step s ev))
  `sublist_of` calls s ++ (fst <$> queue s) ++ executed [ev].
Proof.
  destruct ev as [f| |o|d|j|]; simpl; rewrite ?app_nil_r; try reflexivity.
  - by rewrite fmap_app.
  - unfold worker_turn. destruct (stop_event s); [reflexivity|].
    destruct (running s); [reflexivity|].
    destruct (pause_until s - clock s >? 0); [reflexivity|].
    destruct (queue s) as [|[task_fn future] rest] eqn:Hq; [by rewrite Hq|].
    destruct (Fut.is_done (futures s) future); simpl.
    + apply sublist_app; [reflexivity|]. by apply sublist_cons.
    + by rewrite <- app_assoc.
  - unfold worker_settle. destruct (running s) as [[task_fn future]|]; [|reflexivity].
    destruct o as [v|e|]; simpl; try reflexivity.
    destruct (Err.wait_seconds e) as [w|]; [destruct (w =? 0)|]; reflexivity.
Qed.

Lemma executed_cons ev evs : executed (ev :: evs) = executed [ev] ++ executed evs.
Proof. unfold executed. simpl. by destruct ev. Qed.

Lemma t_run_order evs s :
  calls (run evs s) ++ (fst <$> queue (run evs s))
  `sublist_of` calls s ++ (fst <$> queue s) ++ executed evs.
Proof.
  revert s. induction evs as [|ev evs IH]; intros s.
  - simpl. by rewrite app_nil_r.
  - rewrite ThreadedFacts.t_run_cons, executed_cons. etrans; [apply IH|].
    rewrite !app_assoc. apply sublist_app; [|reflexivity].
    rewrite <- app_assoc. apply t_step_order.
Qed.

(** The actions the worker has started, followed by those still in the
    queue, are a sub-sequence of the actions handed to [execute], in the
    order in which they were handed in.  So the worker starts actions in
    submission order and none of them twice, whatever the outcomes: an
    action that ended in a flood wait is not run again. *)
Theorem started_in_submission_order (t0 : Z) (evs : list event) :
  let s := run evs (init t0) in
  calls s ++ (fst <$> queue s) `sublist_of` executed evs ∧
  calls s `sublist_of` executed evs ∧
  (length (calls s) + length (queue s) ≤ length (executed evs))%nat.
Proof.
  intros s. pose proof (t_run_order evs (init t0)) as H. simpl in H. fold s in H.
  split; [done|]. split.
  - etrans; [|exact H]. by apply sublist_inserts_r.
  - apply sublist_length in H. by rewrite length_app, length_fmap in H.
Qed.

(** *** No start during a pause *)

Lemma worker_turn_starts s :
  calls (worker_turn s) ≠ calls s → pause_until s ≤ clock s.
Proof.
  unfold worker_turn. destruct (stop_event s); [done|]. destruct (running s); [done|].
  destruct (pause_until s - clock s >? 0) eqn:Hp; [done|]. lia.
Qed.

(** After a flood wait of [w] seconds reported at time [now], whatever
    happens next, the worker starts no action before [now + w]. *)
Theorem flood_wait_honoured (s : limiter) (task_fn : func) (future : nat) (e : exn)
    (w : Z) (evs : list event) :
  running s = Some (task_fn, future) → exn_seconds e = Some w → w ≠ 0 →
  let s1 := run evs (worker_settle (Raises e) s) in
  calls (worker_turn s1) ≠ calls s1 → clock s + w ≤ clock s1.
Proof.
  intros Hrun He Hw s1 Hstart. apply worker_turn_starts in Hstart.
  pose proof (ThreadedFacts.run_pause evs (worker_settle (Raises e) s)) as Hmono.
  fold s1 in Hmono.
  rewrite (ThreadedFacts.t_worker_settle_flood s task_fn future e w Hrun He Hw) in Hmono.
  simpl in Hmono. unfold raised in Hmono. lia.
Qed.

Lemma flood_wait_honoured_witness :
  let e := Exn "FloodWaitError" (Some 3) in
  let s := run [Execute 1%nat; Execute 2%nat; Turn] (init 10) in
  let s1 := run [Turn; Turn; Tick 5] (worker_settle (Raises e) s) in
  calls (worker_turn s1) = [1%nat; 2%nat] ∧ 10 + 3 ≤ clock s1.
Proof.
  intros e s s1. split; [reflexivity|].
  apply (flood_wait_honoured s 1%nat 0%nat e 3 [Turn; Turn; Tick 5] eq_refl eq_refl);
    [lia|discriminate].
Defined.

(** *** Sleeping out a pause *)





End ThreadedRuns.

(** ** The asyncio variant: cooldown and the end of the worker *)

Module AsyncRuns.
Import Async.





(** *** The worker is cancelled *)

Lemma step_gone s ev :
  stopped s = true →
  stopped (step s ev) = true ∧ calls (step s ev) = calls s ∧
  running (step s ev) = running s ∧ paused_until (step s ev) = paused_until s ∧
  ∀ i, futures s !! i = Some Fut.Pending ∨ futures s !! i = Some Fut.Cancelled →
       futures (step s ev) !! i = Some Fut.Pending ∨
       futures (step s ev) !! i = Some Fut.Cancelled.
Proof.
  intros Hst. destruct ev as [f k|f k| |o|d|j]; cbn [step].
  - rewrite AsyncFacts.enqueue_eq.
    destruct (AsyncFacts.enqueue_internal_frame f (next_future s) k false (snd (create_future s)))
      as (-> & -> & _ & -> & -> & _ & ->).
    repeat split; try done. simpl. intros i Hi.
    destruct (decide (next_future s = i)) as [<-|Hne].
    + left. apply lookup_insert_eq.
    + by rewrite lookup_insert_ne.
  - rewrite AsyncFacts.fire_and_forget_eq.
    destruct (AsyncFacts.enqueue_internal_frame f (next_future s) k false (snd (create_future s)))
      as (-> & -> & _ & -> & -> & _ & ->).
    repeat split; try done. simpl. intros i Hi.
    destruct (decide (next_future s = i)) as [<-|Hne].
    + left. apply lookup_insert_eq.
    + by rewrite lookup_insert_ne.
  - unfold worker_take. by rewrite Hst.
  - unfold worker_settle. by rewrite Hst.
  - done.
  - repeat split; try done. simpl. intros i Hi. destruct (decide (j = i)) as [->|Hne].
    + rewrite FutFacts.update_same. destruct Hi as [-> | ->]; by right.
    + by rewrite FutFacts.update_other.
Qed.

(** When [await func()] ends in [CancelledError] the worker leaves its
    loop with the popped item in hand: the item is not queued again and its
    future is not settled.  From then on nothing is invoked and nothing is
    settled, whatever is submitted: a future that is pending stays pending
    unless its caller cancels it. *)
Theorem cancelled_worker_is_gone (s : limiter) (k : string) (fn : func) (future : nat)
    (evs : list event) :
  stopped s = false → running s = Some (k, fn, future) →
  let s0 := worker_settle CancelledError s in
  let s' := run evs s0 in
  (queue_list s0 = queue_list s ∧ queue_map s0 = queue_map s ∧ futures s0 = futures s) ∧
  stopped s' = true ∧
  calls s' = calls s ∧
  ∀ i, futures s !! i = Some Fut.Pending →
       futures s' !! i = Some Fut.Pending ∨ futures s' !! i = Some Fut.Cancelled.
Proof.
  intros Hst Hrun s0 s'.
  assert (Hs0 : s0 = set_stopped true (set_running None s)).
  { subst s0. unfold worker_settle. by rewrite Hst, Hrun. }
  assert (Hgen : ∀ evs s1, stopped s1 = true →
            stopped (run evs s1) = true ∧ calls (run evs s1) = calls s1 ∧
            ∀ i, futures s1 !! i = Some Fut.Pending ∨ futures s1 !! i = Some Fut.Cancelled →
                 futures (run evs s1) !! i = Some Fut.Pending ∨
                 futures (run evs s1) !! i = Some Fut.Cancelled).
  { clear. induction evs as [|ev evs IH]; intros s1 Hst; [done|].
    rewrite AsyncFacts.run_cons.
    destruct (step_gone s1 ev Hst) as (Hst1 & Hc1 & _ & _ & Hf1).
    destruct (IH _ Hst1) as (? & Hc2 & Hf2).
    split; [done|]. split; [congruence|]. auto. }
  split; [by rewrite Hs0|].
  destruct (Hgen evs s0) as (? & Hc & Hf); [by rewrite Hs0|].
  subst s'. split; [done|]. split; [by rewrite Hc, Hs0|].
  intros i Hi. apply Hf. rewrite Hs0. by left.
Qed.

Lemma cancelled_worker_is_gone_witness :
  let s := run [Enqueue 1%nat "a"; Enqueue 2%nat "b"; Take] (init 0) in
  let s' := run [Take; Settle (Returns "late"); Take] (worker_settle CancelledError s) in
  calls s' = [("a", 1%nat)] ∧ futures s' !! 0%nat = Some Fut.Pending.
Proof.
  intros s s'.
  destruct (cancelled_worker_is_gone s "a" 1%nat 0%nat
              [Take; Settle (Returns "late"); Take] eq_refl eq_refl)
    as (_ & _ & Hc & _).
  split; [exact Hc|reflexivity].
Defined.

(** *** The future of the item that ran *)

Lemma enqueue_internal_held fn future k front s :
  held_unsettled s → unsettled (futures s !! future) →
  held_unsettled (enqueue_internal fn future k front s).
Proof.
  intros [Hmap Hrun] Hfut.
  destruct (AsyncFacts.enqueue_internal_frame fn future k front s) as (_ & Hh & _ & Hr & _).
  split.
  - intros k' f' i. rewrite Hh. unfold enqueue_internal.
    destruct (queue_map s !! k) as [[old_func old_future]|] eqn:Hk; simpl.
    + destruct (decide (k = k')) as [<-|Hkk].
      * rewrite lookup_insert_eq. intros [= _ <-]. by apply (Hmap k old_func).
      * rewrite lookup_insert_ne by done. apply Hmap.
    + destruct (decide (k = k')) as [<-|Hkk].
      * rewrite lookup_insert_eq. by intros [= _ <-].
      * rewrite lookup_insert_ne by done. apply Hmap.
  - intros k' f' i. rewrite Hh, Hr. apply Hrun.
Qed.

Lemma step_held s ev :
  refs_ok s → owned_once s → held_unsettled s → held_unsettled (step s ev).
Proof.
  intros [Hrmap Hrrun] [Hinj Hown] [Hmap Hrun].
  assert (Hfresh : ∀ f k,
            held_unsettled (enqueue_internal f (next_future s) k false (snd (create_future s)))).
  { intros f k. apply enqueue_internal_held.
    - split; simpl.
      + intros k' f' i Hi. rewrite lookup_insert_ne; [by apply (Hmap k' f')|].
        apply Hrmap in Hi. lia.
      + intros k' f' i Hi. rewrite lookup_insert_ne; [by apply (Hrun k' f')|].
        apply Hrrun in Hi. lia.
    - left. simpl. apply lookup_insert_eq. }
  destruct ev as [f k|f k| |o|d|j]; cbn [step].
  - rewrite AsyncFacts.enqueue_eq. apply Hfresh.
  - rewrite AsyncFacts.fire_and_forget_eq. apply Hfresh.
  - unfold worker_take. destruct (stopped s); [by split|].
    destruct (running s) eqn:Hr; [by split; rewrite ?Hr|].
    destruct (queue_list s) as [|k rest]; [by split; rewrite ?Hr|].
    destruct (queue_map s !! k) as [[fn future]|] eqn:Hk.
    + destruct (AsyncFacts.sleep_out_pause_frame (set_queue rest (delete k (queue_map s)) s))
        as (_ & Hm & _ & Hh & _).
      split; simpl; rewrite Hh; simpl.
      * intros k' f' i. rewrite Hm. simpl. intros Hk'.
        apply lookup_delete_Some in Hk' as [_ Hk']. by apply (Hmap k' f').
      * intros k' f' i [= <- <- <-]. by apply (Hmap k fn).
    + by split; simpl; rewrite ?Hr.
  - unfold worker_settle. destruct (stopped s); [by split|].
    destruct (running s) as [[[k fn] future]|] eqn:Hr; [|by split; rewrite ?Hr].
    assert (Hother : ∀ k' f' i, queue_map s !! k' = Some (f', i) → future ≠ i).
    { intros k' f' i Hi ->. by apply (Hown k' f' i k fn). }
    destruct o as [v|e|].
    + split; simpl; [|done]. intros k' f' i Hi.
      rewrite FutFacts.update_other; [by apply (Hmap k' f')|by apply (Hother k' f')].
    + destruct (Err.is_flood e).
      * set (s1 := set_paused_until _ _).
        assert (Hok : held_unsettled (enqueue_internal fn future k true s1)).
        { apply enqueue_internal_held; [by split|]. by apply (Hrun k fn). }
        destruct Hok; by split.
      * split; simpl; [|done]. intros k' f' i Hi.
        rewrite FutFacts.update_other; [by apply (Hmap k' f')|by apply (Hother k' f')].
    + by split.
  - by split.
  - assert (Hcancel : ∀ i, unsettled (futures s !! i) →
              unsettled (Fut.update Fut.cancel j (futures s) !! i)).
    { intros i Hi. destruct (decide (j = i)) as [->|Hne].
      - rewrite FutFacts.update_same. destruct Hi as [-> | ->]; by right.
      - by rewrite FutFacts.update_other. }
    split; simpl.
    + intros k' f' i Hi. by apply Hcancel, (Hmap k' f').
    + intros k' f' i Hi. by apply Hcancel, (Hrun k' f').
Qed.

Lemma run_held evs s :
  refs_ok s → owned_once s → held_unsettled s → held_unsettled (run evs s).
Proof.
  revert s. induction evs as [|ev evs IH]; intros s Hrefs Hown Hheld; [done|].
  rewrite AsyncFacts.run_cons.
  apply IH; [by apply AsyncFacts.step_refs_ok|by apply AsyncFacts.step_owned_once|
             by apply step_held].
Qed.

(** In whatever state the limiter has reached, the futures held by the
    queue slots and by the worker are not settled yet.  So when the action
    that ran returns, or fails with something that is no flood wait, its
    future gets this outcome unless its caller has cancelled it. *)
Theorem outcome_reaches_the_future (t0 : Z) (evs : list event) (k : string) (fn : func)
    (future : nat) :
  let s := run evs (init t0) in
  held_unsettled s ∧
  (stopped s = false → running s = Some (k, fn, future) →
   (futures s !! future = Some Fut.Pending ∨ futures s !! future = Some Fut.Cancelled) ∧
   (∀ v, futures (worker_settle (Returns v) s) !! future
         = Some (match futures s !! future with
                 | Some Fut.Pending => Fut.Result v
                 | _ => Fut.Cancelled
                 end)) ∧
   (∀ e, Err.is_flood e = false →
         futures (worker_settle (Raises e) s) !! future
         = Some (match futures s !! future with
                 | Some Fut.Pending => Fut.Exception e
                 | _ => Fut.Cancelled
                 end))).
Proof.
  intros s.
  assert (Hheld : held_unsettled s).
  { apply run_held; [apply AsyncFacts.init_refs_ok|apply AsyncFacts.init_owned_once|].
    split; simpl; [|done]. intros k' f' i. by rewrite lookup_empty. }
  split; [done|]. intros Hst Hrun.
  pose proof (proj2 Hheld k fn future Hrun) as Hfut. split; [done|]. split.
  - intros v. unfold worker_settle. rewrite Hst, Hrun. simpl.
    rewrite FutFacts.update_same. by destruct Hfut as [-> | ->].
  - intros e He. unfold worker_settle. rewrite Hst, Hrun, He. simpl.
    rewrite FutFacts.update_same. by destruct Hfut as [-> | ->].
Qed.

Lemma outcome_reaches_the_future_witness :
  let evs := [Enqueue 1%nat "a"; Enqueue 2%nat "a"; Take] in
  futures (worker_settle (Returns "done_2") (run evs (init 0))) !! 0%nat
  = Some (Fut.Result "done_2").
Proof.
  intros evs.
  destruct (proj2 (outcome_reaches_the_future 0 evs "a" 2%nat 0%nat) eq_refl eq_refl)
    as (_ & Hret & _).
  exact (Hret "done_2").
Defined.

(** *** How many calls *)

Lemma budget_one ev :
  submissions [ev] = (if is_submission ev then 1 else 0)%nat ∧
  flood_waits [ev] = (if flood_settle ev then 1 else 0)%nat.
Proof.
  unfold submissions, flood_waits. rewrite !filter_cons, !filter_nil.
  split; [destruct (is_submission ev)|destruct (flood_settle ev)]; by case_decide.
Qed.

Lemma step_budget s ev :
  (length (calls (step s ev)) + length (queue_list (step s ev))
   ≤ length (calls s) + length (queue_list s) + submissions [ev] + flood_waits [ev])%nat.
Proof.
  assert (Henq : ∀ fn future k front s0,
            (length (queue_list (enqueue_internal fn future k front s0))
             ≤ length (queue_list s0) + 1)%nat).
  { intros fn future k front s0. unfold enqueue_internal.
    destruct (queue_map s0 !! k) as [[? ?]|]; simpl; [lia|].
    destruct front; simpl; [lia|]. rewrite length_app. simpl. lia. }
  destruct ev as [f k|f k| |o|d|j]; cbn [step].
  - rewrite AsyncFacts.enqueue_eq.
    destruct (AsyncFacts.enqueue_internal_frame f (next_future s) k false (snd (create_future s)))
      as (_ & _ & _ & _ & -> & _).
    specialize (Henq f (next_future s) k false (snd (create_future s))).
    unfold submissions, flood_waits. simpl in *. lia.
  - rewrite AsyncFacts.fire_and_forget_eq.
    destruct (AsyncFacts.enqueue_internal_frame f (next_future s) k false (snd (create_future s)))
      as (_ & _ & _ & _ & -> & _).
    specialize (Henq f (next_future s) k false (snd (create_future s))).
    unfold submissions, flood_waits. simpl in *. lia.
  - unfold worker_take. destruct (stopped s); [lia|]. destruct (running s); [lia|].
    destruct (queue_list s) as [|k rest] eqn:Hl; [rewrite ?Hl; lia|].
    destruct (queue_map s !! k) as [[fn future]|]; simpl.
    + destruct (AsyncFacts.sleep_out_pause_frame (set_queue rest (delete k (queue_map s)) s))
        as (-> & _ & _ & _ & _ & _ & -> & _).
      simpl. rewrite length_app. simpl. lia.
    + lia.
  - rewrite AsyncFacts.worker_settle_calls.
    unfold worker_settle. destruct (stopped s); [lia|].
    destruct (running s) as [[[k fn] future]|]; [|lia].
    destruct o as [v|e|]; simpl; [lia| |lia].
    destruct (budget_one (Settle (Raises e))) as [-> ->]. simpl.
    destruct (Err.is_flood e) eqn:He; simpl.
    + specialize (Henq fn future k true
        (set_paused_until (clock s + Err.flood_seconds e) (set_running None s))).
      simpl in *. lia.
    + lia.
  - simpl. lia.
  - simpl. lia.
Qed.

Lemma budget_cons ev evs :
  submissions (ev :: evs) = (submissions [ev] + submissions evs)%nat ∧
  flood_waits (ev :: evs) = (flood_waits [ev] + flood_waits evs)%nat.
Proof.
  unfold submissions, flood_waits. rewrite !filter_cons, !filter_nil.
  split; case_decide; simpl; lia.
Qed.

(** The worker invokes nothing on its own account: in every course of
    events the number of invocations so far plus the number of keys still
    queued is at most the number of submissions plus the number of flood
    waits. *)
Theorem calls_within_budget (t0 : Z) (evs : list event) :
  let s := run evs (init t0) in
  (length (calls s) + length (queue_list s) ≤ submissions evs + flood_waits evs)%nat.
Proof.
  intros s. subst s.
  assert (Hgen : ∀ evs s0,
            (length (calls (run evs s0)) + length (queue_list (run evs s0))
             ≤ length (calls s0) + length (queue_list s0) + submissions evs + flood_waits evs)%nat).
  { clear. induction evs as [|ev evs IH]; intros s0; [simpl; lia|].
    rewrite AsyncFacts.run_cons. destruct (budget_cons ev evs) as [-> ->].
    specialize (IH (step s0 ev)). pose proof (step_budget s0 ev). lia. }
  specialize (Hgen evs (init t0)). simpl in Hgen. lia.
Qed.

(** *** A caller gave up *)

(** Unlike the thread-based worker, the asyncio worker does not look at
    the future before it runs the action: in whatever state the limiter has
    reached, when the future of the key at the head of the queue is
    cancelled the worker still pops the key and invokes its action, and
    whether that returns or fails the future stays cancelled. *)
Theorem cancelled_future_still_runs (t0 : Z) (evs : list event) (k : string)
    (rest : list string) (fn : func) (future : nat) :
  let s := run evs (init t0) in
  stopped s = false → running s = None → queue_list s = k :: rest →
  queue_map s !! k = Some (fn, future) → futures s !! future = Some Fut.Cancelled →
  calls (worker_take s) = calls s ++ [(k, fn)] ∧
  running (worker_take s) = Some (k, fn, future) ∧
  ∀ o evs', futures (run evs' (worker_settle o (worker_take s))) !! future
            = Some Fut.Cancelled.
Proof.
  intros s Hst Hrun Hl Hk Hfut.
  pose proof (AsyncFacts.worker_take_pops s k rest fn future Hst Hrun Hl Hk) as Htake.
  destruct (AsyncFacts.sleep_out_pause_frame (set_queue rest (delete k (queue_map s)) s))
    as (_ & _ & _ & _ & _ & _ & Hc & _).
  split; [rewrite Htake; simpl; by rewrite Hc|]. split; [by rewrite Htake|].
  intros o evs'.
  change (run evs' (worker_settle o (worker_take s)))
    with (run (Take :: Settle o :: evs') s).
  apply AsyncFacts.run_done_stable; [|done..].
  apply AsyncFacts.run_heap_ok, AsyncFacts.init_heap_ok.
Qed.

Lemma cancelled_future_still_runs_witness :
  let evs := [Enqueue 1%nat "a"; Cancel 0%nat] in
  calls (worker_take (run evs (init 0))) = [("a", 1%nat)] ∧
  futures (run [] (worker_settle (Returns "unused") (worker_take (run evs (init 0))))) !! 0%nat
  = Some Fut.Cancelled.
Proof.
  intros evs.
  destruct (cancelled_future_still_runs 0 evs "a" [] 1%nat 0%nat
              eq_refl eq_refl eq_refl eq_refl eq_refl) as (Hc & _ & Hf).
  split; [exact Hc|]. exact (Hf (Returns "unused") []).
Defined.

End AsyncRuns.

(** ** The thread-based variant: [stop] *)

Module WorkerThreadFacts.
Import Threaded WorkerThread.

Lemma thread_run_cons (ev : event) (evs : list event) (t : thread) :
  run (ev :: evs) t = run evs (step t ev).
Proof. reflexivity. Qed.

Lemma worker_settle_stop o s :
  stop_event (worker_settle o s) = stop_event s ∧ calls (worker_settle o s) = calls s.
Proof.
  unfold worker_settle. destruct (running s) as [[task_fn future]|]; [|done].
  destruct o as [v|e|]; simpl; [done| |done].
  destruct (Err.wait_seconds e) as [w|]; [|done]. by destruct (w =? 0).
Qed.

(** With the stop event set, a step of anyone starts at most what the
    worker has left to start. *)
Lemma step_after_stop t ev :
  stop_event (lim t) = true →
  stop_event (lim (step t ev)) = true ∧
  ∃ extra, calls (lim (step t ev)) = calls (lim t) ++ extra ∧
           (length extra + starts_left (at_ (step t ev)) ≤ starts_left (at_ t))%nat.
Proof.
  intros Hstop.
  assert (Hsame : ∀ t', stop_event (lim t') = true → calls (lim t') = calls (lim t) →
            (starts_left (at_ t') ≤ starts_left (at_ t))%nat →
            stop_event (lim t') = true ∧
            ∃ extra, calls (lim t') = calls (lim t) ++ extra ∧
                     (length extra + starts_left (at_ t') ≤ starts_left (at_ t))%nat).
  { intros t' ? Hc ?. split; [done|]. exists []. by rewrite app_nil_r. }
  destruct ev as [f| |o|d|j|]; cbn [step]; try (by apply Hsame).
  - destruct t as [s p]. unfold advance. cbn [lim at_] in *. destruct p.
    + rewrite Hstop. apply (Hsame (Thread s Left)); simpl; [done|done|lia].
    + destruct (queue s) as [|[task_fn future] rest];
        [apply (Hsame (Thread s InGet)); simpl; [done|done|lia]|].
      destruct (Fut.is_done (futures s) future).
      * apply (Hsame (Thread _ AtWhile)); simpl; [done|done|lia].
      * split; [done|]. exists [task_fn]. simpl. split; [done|lia].
    + apply (Hsame (Thread s InTask)); simpl; [done|done|lia].
    + apply (Hsame (Thread s Left)); simpl; [done|done|lia].
  - destruct t as [s p]. unfold settle. cbn [lim at_] in *.
    destruct (worker_settle_stop o s) as [Hs Hc].
    destruct p;
      [apply (Hsame (Thread s AtWhile))|apply (Hsame (Thread s InGet))
      |apply (Hsame (Thread (worker_settle o s) AtWhile))|apply (Hsame (Thread s Left))];
      simpl; try done; try lia. by rewrite Hs.
Qed.

Lemma run_after_stop evs : ∀ t,
  stop_event (lim t) = true →
  stop_event (lim (run evs t)) = true ∧
  ∃ extra, calls (lim (run evs t)) = calls (lim t) ++ extra ∧
           (length extra + starts_left (at_ (run evs t)) ≤ starts_left (at_ t))%nat.
Proof.
  induction evs as [|ev evs IH]; intros t Hstop.
  - split; [done|]. exists []. simpl. rewrite app_nil_r. split; [done|lia].
  - rewrite thread_run_cons.
    destruct (step_after_stop t ev Hstop) as (Hstop1 & extra1 & Hc1 & Hn1).
    destruct (IH _ Hstop1) as (Hstop2 & extra2 & Hc2 & Hn2).
    split; [done|]. exists (extra1 ++ extra2).
    rewrite Hc2, Hc1, <- app_assoc, length_app. split; [done|lia].
Qed.

(** The stop event is read at the [while] only.  So after [stop], whatever
    happens, the worker starts at most one more task, and none unless it
    was in [queue.get] when [stop] was called; a worker that was there on
    an empty queue does start the next task handed to [execute]. *)
Theorem one_more_start_after_stop (t : thread) (evs : list event) :
  let t' := run evs (step t Stop) in
  stop_event (lim t') = true ∧
  (∃ extra, calls (lim t') = calls (lim t) ++ extra ∧ (length extra ≤ 1)%nat ∧
            (at_ t ≠ InGet → extra = [])) ∧
  (∀ f, at_ t = InGet → queue (lim t) = [] →
        let t1 := run [Execute f; Turn] (step t Stop) in
        calls (lim t1) = calls (lim t) ++ [f] ∧ at_ t1 = InTask).
Proof.
  intros t'. subst t'.
  destruct (run_after_stop evs (step t Stop) eq_refl) as (Hstop & extra & Hc & Hn).
  split; [done|]. split.
  - exists extra. simpl in Hc, Hn. split; [done|].
    split; [destruct (at_ t); simpl in Hn; lia|].
    intros Hat. destruct (at_ t); simpl in Hn; try done;
      destruct extra; simpl in Hn; try done; lia.
  - intros f Hat Hq. simpl. unfold advance. simpl. rewrite Hat, Hq. simpl.
    unfold Fut.is_done. by rewrite lookup_insert_eq.
Qed.

(** [stop] finds the worker in [queue.get] on an empty queue: the first
    action handed in afterwards runs, the second one never. *)
Lemma one_more_start_after_stop_witness :
  let t := run [Turn] (start 0) in
  let t' := run [Execute 1%nat; Turn; Execute 2%nat; Settle (Returns "late"); Turn; Turn]
                (step t Stop) in
  at_ t = InGet ∧ calls (lim t') = [1%nat] ∧ at_ t' = Left ∧
  ∃ extra, calls (lim t') = calls (lim t) ++ extra ∧ (length extra ≤ 1)%nat.
Proof.
  intros t t'. split; [reflexivity|]. split; [reflexivity|]. split; [reflexivity|].
  destruct (one_more_start_after_stop t
              [Execute 1%nat; Turn; Execute 2%nat; Settle (Returns "late"); Turn; Turn])
    as (_ & (extra & Hc & Hn & _) & _).
  exists extra. by split.
Defined.

End WorkerThreadFacts.
